(** * dicomio.Reader: a bounded cursor over a byte source

    Shallow embedding of [pkg/dicomio/reader.go].  The Go [reader] struct is a
    record; every method that mutates the receiver returns the new record.  The
    [io.Reader] the struct wraps is an interface, modelled by the class
    [ByteSource]: a state type with one [Read] step.  The loops of the Go
    standard library that the methods call ([io.ReadFull], [io.CopyN] into
    [ioutil.Discard], [binary.Read]) are written out after the Go sources and
    take fuel, since a source may answer [(0, nil)] for ever. *)

From Stdlib Require Import ZArith List Lia Bool.
From Stdlib Require Import Strings.Byte.
Import ListNotations.
Local Open Scope Z_scope.

(* ------------------------------------------------------------------------- *)
(** ** Go's [int64] *)

Module Int64.

Definition min_int : Z := - 2 ^ 63.
Definition max_int : Z := 2 ^ 63 - 1.

(** Two's complement wrap-around of a mathematical integer. *)
Definition wrap (z : Z) : Z := (z + 2 ^ 63) mod 2 ^ 64 - 2 ^ 63.

Definition add (a b : Z) : Z := wrap (a + b).
Definition sub (a b : Z) : Z := wrap (a - b).

Definition in_range (z : Z) : Prop := min_int <= z <= max_int.

End Int64.

(* ------------------------------------------------------------------------- *)
(** ** Errors, outcomes, byte slices *)

Inductive error : Type :=
| EOF                                        (* io.EOF *)
| ErrUnexpectedEOF                           (* io.ErrUnexpectedEOF *)
| ErrShortBuffer                             (* io.ErrShortBuffer *)
| ErrorInsufficientBytesLeft                 (* the package's own error *)
| ErrNewLimit (newLimit limit : Z)           (* fmt.Errorf in PushLimit *)
| ErrSource (code : nat).                    (* any other error of the source *)

(** A call returns, panics, or is cut off by the fuel of the model. *)
Inductive outcome (A : Type) : Type :=
| Ret (a : A)
| Panic
| OutOfFuel.

Arguments Ret {A} a.
Arguments Panic {A}.
Arguments OutOfFuel {A}.

Definition bind {A B : Type} (m : outcome A) (k : A -> outcome B) : outcome B :=
  match m with
  | Ret a => k a
  | Panic => Panic
  | OutOfFuel => OutOfFuel
  end.

Notation "x <- m ;; k" := (bind m (fun x => k))
  (at level 61, m at next level, right associativity).
Notation "' p <- m ;; k" := (bind m (fun x => let p := x in k))
  (at level 61, p pattern, m at next level, right associativity).

(** [len(p)] *)
Definition len {A : Type} (p : list A) : Z := Z.of_nat (length p).

(** [p[:k]] and [p[k:]] for an index already known to be in range. *)
Definition slice_to {A : Type} (p : list A) (k : Z) : list A := firstn (Z.to_nat k) p.
Definition slice_from {A : Type} (p : list A) (k : Z) : list A := skipn (Z.to_nat k) p.

(** What a slice holds after [data] was copied to its front. *)
Definition overwrite (p data : list byte) : list byte :=
  firstn (length p) data ++ skipn (length data) p.

(** [make([]byte, n)] *)
Definition make_bytes (n : Z) : list byte := repeat x00 (Z.to_nat n).

(** [l[i]], [None] where Go panics with an index out of range. *)
Definition index {A : Type} (l : list A) (i : Z) : option A :=
  if i <? 0 then None else nth_error l (Z.to_nat i).

Definition byte_val (b : byte) : Z := Z.of_N (Byte.to_N b).

(* ------------------------------------------------------------------------- *)
(** ** [binary.ByteOrder] *)

Inductive ByteOrder : Type := LittleEndian | BigEndian.

Definition nth_byte (b : list byte) (i : nat) : Z := byte_val (nth i b x00).

(** [order.Uint16(b)] and [order.Uint32(b)] of encoding/binary. *)
Definition Uint16 (order : ByteOrder) (b : list byte) : Z :=
  match order with
  | LittleEndian => Z.lor (nth_byte b 0) (Z.shiftl (nth_byte b 1) 8)
  | BigEndian => Z.lor (nth_byte b 1) (Z.shiftl (nth_byte b 0) 8)
  end.

Definition Uint32 (order : ByteOrder) (b : list byte) : Z :=
  match order with
  | LittleEndian =>
      Z.lor (Z.lor (Z.lor (nth_byte b 0) (Z.shiftl (nth_byte b 1) 8))
                   (Z.shiftl (nth_byte b 2) 16))
            (Z.shiftl (nth_byte b 3) 24)
  | BigEndian =>
      Z.lor (Z.lor (Z.lor (nth_byte b 3) (Z.shiftl (nth_byte b 2) 8))
                   (Z.shiftl (nth_byte b 1) 16))
            (Z.shiftl (nth_byte b 0) 24)
  end.

(** The number a byte sequence denotes, least or most significant byte first:
    what "interpreting bytes in a byte order" means, as sums and products. *)
Definition le_value (bs : list byte) : Z :=
  fold_right (fun b acc => byte_val b + 256 * acc) 0 bs.

Definition be_value (bs : list byte) : Z :=
  fold_left (fun acc b => 256 * acc + byte_val b) bs 0.

Definition order_value (order : ByteOrder) (bs : list byte) : Z :=
  match order with
  | LittleEndian => le_value bs
  | BigEndian => be_value bs
  end.

(** The conversions [int16(v)] and [int32(v)] of an unsigned value. *)
Definition to_int16 (v : Z) : Z := (v + 2 ^ 15) mod 2 ^ 16 - 2 ^ 15.
Definition to_int32 (v : Z) : Z := (v + 2 ^ 31) mod 2 ^ 32 - 2 ^ 31.

(* ------------------------------------------------------------------------- *)
(** ** The byte source ([io.Reader]) *)

(** The answer of one [Read(p)]: the count [n] it reports, the bytes it put at
    the front of [p], and its error. *)
Record ReadResult : Type := mkResult {
  res_n : Z;
  res_data : list byte;
  res_err : option error
}.

(** [src_Read s k] is [s.Read(p)] for a slice of [k] bytes: the answer and the
    source afterwards. *)
Class ByteSource (S : Type) : Type :=
  src_Read : S -> Z -> ReadResult * S.

(** An in-memory source in the manner of [bytes.Reader]: as many bytes as asked
    for while there are some, [io.EOF] once there are none. *)
Definition mem_Read (s : list byte) (k : Z) : ReadResult * list byte :=
  match s with
  | [] => (mkResult 0 [] (Some EOF), [])
  | _ => (mkResult (len (slice_to s k)) (slice_to s k) None, slice_from s k)
  end.

#[export] Instance MemSource : ByteSource (list byte) := mem_Read.

(** A source that never has anything and never says so: [(0, nil)] to every
    request, which [io.Reader] discourages but allows. *)
Definition stalled_Read (s : unit) (k : Z) : ReadResult * unit :=
  (mkResult 0 [] None, tt).

#[export] Instance StalledSource : ByteSource unit := stalled_Read.

(* ------------------------------------------------------------------------- *)
(** ** The reader *)

Section Reader.

Context {S : Type} {source : ByteSource S}.

Record reader : Type := mkReader {
  in_ : S;
  bo : ByteOrder;
  limit : Z;
  bytesRead : Z;
  limitStack : list Z
}.

Definition NewReader (i : S) (order : ByteOrder) (lim : Z) : reader * option error :=
  (mkReader i order lim 0 [], None).

Definition BytesLeftUntilLimit (r : reader) : Z :=
  Int64.sub (limit r) (bytesRead r).

Definition Read (r : reader) (p : list byte)
  : Z * option error * list byte * reader :=
  if BytesLeftUntilLimit r <=? 0 then
    if len p =? 0 then (0, None, p, r) else (0, Some EOF, p, r)
  else
    let q := if len p >? BytesLeftUntilLimit r
             then slice_to p (BytesLeftUntilLimit r) else p in
    let '(res, s') := src_Read (in_ r) (len q) in
    let p' := overwrite q (res_data res) ++ skipn (length q) p in
    let n := res_n res in
    let read' := if n >=? 0 then Int64.add (bytesRead r) n else bytesRead r in
    (n, res_err res, p', mkReader s' (bo r) (limit r) read' (limitStack r)).

(** The size of the slice [Read] hands to the source. *)
Definition request (r : reader) (p : list byte) : Z :=
  Z.min (len p) (BytesLeftUntilLimit r).

(** *** [io.ReadFull] over the reader

    [ReadAtLeast(r, buf, min)]: [for n < min && err == nil { nn, err =
    r.Read(buf[n:]); n += nn }].  [buf[n:]] panics for a negative [n]. *)
Definition ReadAtLeast_end (n min : Z) (err : option error) : option error :=
  if n >=? min then None
  else match err with
       | Some EOF => if n >? 0 then Some ErrUnexpectedEOF else Some EOF
       | _ => err
       end.

Fixpoint ReadAtLeast_loop (fuel : nat) (r : reader) (buf : list byte) (min n : Z)
  : outcome (Z * option error * list byte * reader) :=
  if n <? min then
    match fuel with
    | O => OutOfFuel
    | Datatypes.S fuel' =>
        if (n <? 0) || (len buf <? n) then Panic
        else
          let '(nn, err, tail', r') := Read r (slice_from buf n) in
          let buf' := slice_to buf n ++ tail' in
          let n' := n + nn in
          match err with
          | None => ReadAtLeast_loop fuel' r' buf' min n'
          | Some _ => Ret (n', ReadAtLeast_end n' min err, buf', r')
          end
    end
  else Ret (n, ReadAtLeast_end n min None, buf, r).

Definition ReadAtLeast (fuel : nat) (r : reader) (buf : list byte) (min : Z)
  : outcome (Z * option error * list byte * reader) :=
  if len buf <? min then Ret (0, Some ErrShortBuffer, buf, r)
  else ReadAtLeast_loop fuel r buf min 0.

Definition ReadFull (fuel : nat) (r : reader) (buf : list byte)
  : outcome (Z * option error * list byte * reader) :=
  ReadAtLeast fuel r buf (len buf).

(** *** [binary.Read] for the four integer types

    The fast path of encoding/binary: [bs := make([]byte, size)], [io.ReadFull],
    then the byte order decodes [bs]; on an error the target keeps its zero. *)
Definition binary_Read (fuel : nat) (r : reader) (size : Z)
           (decode : ByteOrder -> list byte -> Z)
  : outcome (Z * option error * reader) :=
  '(_, err, bs, r') <- ReadFull fuel r (make_bytes size) ;;
  match err with
  | Some e => Ret (0, Some e, r')
  | None => Ret (decode (bo r) bs, None, r')
  end.

Definition ReadUInt16 (fuel : nat) (r : reader) : outcome (Z * option error * reader) :=
  binary_Read fuel r 2 Uint16.

Definition ReadUInt32 (fuel : nat) (r : reader) : outcome (Z * option error * reader) :=
  binary_Read fuel r 4 Uint32.

Definition ReadInt16 (fuel : nat) (r : reader) : outcome (Z * option error * reader) :=
  binary_Read fuel r 2 (fun order b => to_int16 (Uint16 order b)).

Definition ReadInt32 (fuel : nat) (r : reader) : outcome (Z * option error * reader) :=
  binary_Read fuel r 4 (fun order b => to_int32 (Uint32 order b)).

(** [ReadString(n uint32)]: the whole buffer comes back, whatever was read. *)
Definition ReadString (fuel : nat) (r : reader) (n : Z)
  : outcome (list byte * option error * reader) :=
  '(_, err, data, r') <- ReadFull fuel r (make_bytes n) ;;
  Ret (data, err, r').

(** *** [io.CopyN(ioutil.Discard, r, n)]

    [CopyN] copies from [LimitReader(r, n)]; [Copy] hands over to the
    [ReadFrom] of [Discard], which reads into a buffer of 8192 bytes until an
    error and turns [io.EOF] into [nil]. *)
Definition LimitedReader_Read (r : reader) (N : Z) (p : list byte)
  : Z * option error * list byte * reader * Z :=
  if N <=? 0 then (0, Some EOF, p, r, N)
  else
    let q := if len p >? N then slice_to p N else p in
    let '(n, err, q', r') := Read r q in
    (n, err, q' ++ skipn (length q) p, r', Int64.sub N n).

Definition blackHole : list byte := make_bytes 8192.

Fixpoint discard_ReadFrom (fuel : nat) (r : reader) (N : Z) (buf : list byte) (n : Z)
  : outcome (Z * option error * reader) :=
  match fuel with
  | O => OutOfFuel
  | Datatypes.S fuel' =>
      let '(readSize, err, buf', r', N') := LimitedReader_Read r N buf in
      let n' := Int64.add n readSize in
      match err with
      | Some EOF => Ret (n', None, r')
      | Some e => Ret (n', Some e, r')
      | None => discard_ReadFrom fuel' r' N' buf' n'
      end
  end.

Definition CopyN_Discard (fuel : nat) (r : reader) (n : Z)
  : outcome (Z * option error * reader) :=
  '(written, err, r') <- discard_ReadFrom fuel r n blackHole 0 ;;
  if written =? n then Ret (n, None, r')
  else match err with
       | None => if written <? n then Ret (written, Some EOF, r')
                 else Ret (written, None, r')
       | Some e => Ret (written, Some e, r')
       end.

Definition Skip (fuel : nat) (r : reader) (n : Z) : outcome (option error * reader) :=
  if BytesLeftUntilLimit r <? n then Ret (Some ErrorInsufficientBytesLeft, r)
  else
    '(_, err, r') <- CopyN_Discard fuel r n ;;
    Ret (err, r').

Definition PushLimit (r : reader) (n : Z) : option error * reader :=
  let newLimit := Int64.add (bytesRead r) n in
  if newLimit >? limit r then (Some (ErrNewLimit newLimit (limit r)), r)
  else (None, mkReader (in_ r) (bo r) newLimit (bytesRead r) (limitStack r ++ [limit r])).

Definition PopLimit (fuel : nat) (r : reader) : outcome reader :=
  r1 <- (if bytesRead r <? limit r
         then '(_, r') <- Skip fuel r (Int64.sub (limit r) (bytesRead r)) ;; Ret r'
         else Ret r) ;;
  let last := len (limitStack r1) - 1 in
  match index (limitStack r1) last with
  | None => Panic
  | Some l => Ret (mkReader (in_ r1) (bo r1) l (bytesRead r1) (slice_to (limitStack r1) last))
  end.

Definition IsLimitExhausted (r : reader) : bool :=
  BytesLeftUntilLimit r <=? 0.

End Reader.

Arguments reader S : clear implicits.

(** The operations of the [Reader] interface, for statements about all of them. *)
Inductive op : Type :=
| OpRead (p : list byte)
| OpReadUInt16
| OpReadUInt32
| OpReadInt16
| OpReadInt32
| OpReadString (n : Z)
| OpSkip (n : Z)
| OpPushLimit (n : Z)
| OpPopLimit
| OpIsLimitExhausted
| OpBytesLeftUntilLimit.

(** The reader an operation leaves behind. *)
Definition run {S : Type} {source : ByteSource S}
           (fuel : nat) (o : op) (r : reader S) : outcome (reader S) :=
  match o with
  | OpRead p => let '(_, _, _, r') := Read r p in Ret r'
  | OpReadUInt16 => '(_, _, r') <- ReadUInt16 fuel r ;; Ret r'
  | OpReadUInt32 => '(_, _, r') <- ReadUInt32 fuel r ;; Ret r'
  | OpReadInt16 => '(_, _, r') <- ReadInt16 fuel r ;; Ret r'
  | OpReadInt32 => '(_, _, r') <- ReadInt32 fuel r ;; Ret r'
  | OpReadString n => '(_, _, r') <- ReadString fuel r n ;; Ret r'
  | OpSkip n => '(_, r') <- Skip fuel r n ;; Ret r'
  | OpPushLimit n => Ret (snd (PushLimit r n))
  | OpPopLimit => PopLimit fuel r
  | OpIsLimitExhausted => let _ := IsLimitExhausted r in Ret r
  | OpBytesLeftUntilLimit => let _ := BytesLeftUntilLimit r in Ret r
  end.

(** A reader over an in-memory source, as [NewReader] makes it. *)
Definition reader_over (bs : list byte) (order : ByteOrder) (lim : Z)
  : reader (list byte) :=
  fst (NewReader bs order lim).

(** The same, some bytes into its input and inside a pushed scope. *)
Definition reader_at (bs : list byte) (order : ByteOrder) (lim pos : Z)
           (stack : list Z) : reader (list byte) :=
  mkReader bs order lim pos stack.

(** Ten bytes of input: a 16-bit value, a 32-bit value and four letters. *)
Definition ten_bytes : list byte :=
  [x01; x00; x0a; x0b; x0c; x0d; x41; x42; x43; x44].

(* ------------------------------------------------------------------------- *)
(** ** What is asked of a byte source *)

Section Sources.

Context {S : Type} {source : ByteSource S}.

(** The contract of [io.Reader]: [0 <= n <= len(p)], and [n] bytes written. *)
Definition honours_contract : Prop :=
  forall (s : S) (k : Z), 0 <= k ->
    let res := fst (src_Read s k) in
    0 <= res_n res <= k /\ len (res_data res) = res_n res.

(** One answer to a request of [k] bytes while [bs] is still to come: a
    non-empty front of [bs], with no error unless it completes [bs]. *)
Definition chunk_of (k : Z) (bs : list byte) (res : ReadResult) : Prop :=
  0 < res_n res <= k /\
  res_data res = slice_to bs (res_n res) /\
  (res_n res < len bs -> res_err res = None).

(** [supplies s bs]: asked for no more than is left of [bs], the source hands
    out [bs] piece by piece, in order and without an error on the way. *)
Inductive supplies : S -> list byte -> Prop :=
| supplies_nil (s : S) : supplies s []
| supplies_more (s : S) (bs : list byte) :
    bs <> [] ->
    (forall k, 0 < k <= len bs -> chunk_of k bs (fst (src_Read s k))) ->
    (forall k, 0 < k <= len bs ->
       supplies (snd (src_Read s k)) (slice_from bs (res_n (fst (src_Read s k))))) ->
    supplies s bs.

(** The counters are [int64] values and [limit - bytesRead] is one too, so
    that no subtraction or addition of the reader wraps around. *)
Definition no_overflow (r : reader S) : Prop :=
  Int64.in_range (bytesRead r) /\
  Int64.in_range (limit r) /\
  Int64.in_range (limit r - bytesRead r).

(** [pulled r d r']: [r'] is [r] after [d] more bytes of the current scope
    were taken from the source; nothing else of the reader changed. *)
Definition pulled (r : reader S) (d : Z) (r' : reader S) : Prop :=
  0 <= d <= Z.max 0 (BytesLeftUntilLimit r) /\
  bytesRead r' = Int64.add (bytesRead r) d /\
  BytesLeftUntilLimit r' = BytesLeftUntilLimit r - d /\
  limit r' = limit r /\ limitStack r' = limitStack r /\ bo r' = bo r.

(** [advanced r r']: the cursor of [r'] is the cursor of [r] moved forward by
    a count that is not negative, in the arithmetic of [int64]. *)
Definition advanced (r r' : reader S) : Prop :=
  exists d, 0 <= d /\ bytesRead r' = Int64.add (bytesRead r) d.

(** The limit, the stack of limits and the byte order are the same. *)
Definition same_scope (r r' : reader S) : Prop :=
  limit r' = limit r /\ limitStack r' = limitStack r /\ bo r' = bo r.

End Sources.

(* ------------------------------------------------------------------------- *)
(** ** Sequences of operations and the nesting of scopes *)

(** The operations that read, skip or ask, as opposed to the two that enter
    and leave a scope. *)
Definition is_read (o : op) : bool :=
  match o with
  | OpPushLimit _ | OpPopLimit => false
  | _ => true
  end.

(** Each limit is at most the one that follows it. *)
Fixpoint nested (l : list Z) : Prop :=
  match l with
  | a :: ((b :: _) as t) => a <= b /\ nested t
  | _ => True
  end.

(** A [PushLimit n] of a sequence asks for a count that is not negative and
    that cannot carry a boundary below [L] over the top of [int64]. *)
Definition push_fits (L : Z) (o : op) : Prop :=
  match o with
  | OpPushLimit n => 0 <= n /\ L + n <= Int64.max_int
  | _ => True
  end.

Section Sequences.

Context {S : Type} {source : ByteSource S}.

(** The operations of a list, one after the other, each on the reader the one
    before it left. *)
Fixpoint run_all (fuel : nat) (ops : list op) (r : reader S) : outcome (reader S) :=
  match ops with
  | [] => Ret r
  | o :: ops' => r' <- run fuel o r ;; run_all fuel ops' r'
  end.

(** The limits in force, the innermost first: the current one, then the stack
    from its top down. *)
Definition scopes (r : reader S) : list Z :=
  limit r :: rev (limitStack r).

(** The cursor is within the current limit, the scopes are nested and none
    reaches beyond [L]. *)
Definition within_limits (L : Z) (r : reader S) : Prop :=
  0 <= bytesRead r <= limit r /\
  nested (scopes r) /\
  Forall (fun l => l <= L) (scopes r).

(** What a typed read of [size] bytes that returned [res] did to the cursor:
    all [size] bytes when it reports no error; fewer, with the value 0, when
    it reports one.  The scope is the same. *)
Definition read_took (size : Z) (r : reader S) (res : Z * option error * reader S)
  : Prop :=
  let '(v, e, r') := res in
  same_scope r r' /\
  match e with
  | None => bytesRead r' = bytesRead r + size
  | Some _ => v = 0 /\ bytesRead r <= bytesRead r' < bytesRead r + size
  end.

End Sequences.

(* ------------------------------------------------------------------------- *)
(** ** Arithmetic of [int64] *)

Module Int64Facts.
Import Int64.

Lemma wrap_in_range (z : Z) : in_range (wrap z).
Proof.
  unfold in_range, wrap, min_int, max_int.
  pose proof (Z.mod_pos_bound (z + 2 ^ 63) (2 ^ 64) ltac:(lia)). lia.
Qed.

Lemma wrap_exact (z : Z) : in_range z -> wrap z = z.
Proof.
  unfold in_range, wrap, min_int, max_int. intros H.
  rewrite Z.mod_small; lia.
Qed.

Lemma wrap_add_inner (a b : Z) : wrap (a + wrap b) = wrap (a + b).
Proof.
  unfold wrap.
  replace (a + ((b + 2 ^ 63) mod 2 ^ 64 - 2 ^ 63) + 2 ^ 63)
    with (a + (b + 2 ^ 63) mod 2 ^ 64) by lia.
  rewrite Zplus_mod_idemp_r. f_equal. f_equal. lia.
Qed.

Lemma wrap_sub_inner (a b : Z) : wrap (a - wrap b) = wrap (a - b).
Proof.
  unfold wrap.
  assert (E : 2 ^ 64 = 2 * 2 ^ 63) by reflexivity.
  replace (a - ((b + 2 ^ 63) mod 2 ^ 64 - 2 ^ 63) + 2 ^ 63)
    with (a + 2 ^ 64 - (b + 2 ^ 63) mod 2 ^ 64) by lia.
  rewrite Zminus_mod_idemp_r. f_equal. f_equal. lia.
Qed.

Lemma add_exact (a b : Z) : in_range (a + b) -> add a b = a + b.
Proof. apply wrap_exact. Qed.

Lemma sub_exact (a b : Z) : in_range (a - b) -> sub a b = a - b.
Proof. apply wrap_exact. Qed.

Lemma add_0_r (a : Z) : in_range a -> add a 0 = a.
Proof. intros H. unfold add. rewrite Z.add_0_r. now apply wrap_exact. Qed.

Lemma add_add (a b c : Z) : add (add a b) c = add a (b + c).
Proof.
  unfold add. rewrite (Z.add_comm (wrap (a + b)) c), wrap_add_inner.
  f_equal. lia.
Qed.

(** Consuming [n] bytes shortens what is left until the limit by [n]. *)
Lemma sub_add_consumed (l b n : Z) :
  0 <= n <= sub l b -> sub l (add b n) = sub l b - n.
Proof.
  intros H. unfold sub, add in *. rewrite wrap_sub_inner.
  pose proof (wrap_in_range (l - b)) as R.
  replace (l - (b + n)) with ((- n) + (l - b)) by lia.
  rewrite <- wrap_add_inner.
  rewrite wrap_exact; [lia|]. unfold in_range, min_int, max_int in *. lia.
Qed.

End Int64Facts.

(* ------------------------------------------------------------------------- *)
(** ** Slices *)

Section SliceFacts.

Context {A : Type}.
Implicit Types p q : list A.

Lemma len_nonneg p : 0 <= len p.
Proof. unfold len. lia. Qed.

Lemma len_app p q : len (p ++ q) = len p + len q.
Proof. unfold len. rewrite length_app. lia. Qed.

Lemma len_nil_inv p : len p = 0 -> p = [].
Proof. unfold len. destruct p; simpl; [reflexivity | lia]. Qed.

Lemma len_slice_to p k : 0 <= k <= len p -> len (slice_to p k) = k.
Proof. unfold len, slice_to. intros H. rewrite length_firstn. lia. Qed.

Lemma len_slice_from p k : 0 <= k <= len p -> len (slice_from p k) = len p - k.
Proof. unfold len, slice_from. intros H. rewrite length_skipn. lia. Qed.

Lemma slice_to_len p : slice_to p (len p) = p.
Proof. unfold slice_to, len. rewrite Nat2Z.id. apply firstn_all. Qed.

Lemma slice_from_len p : slice_from p (len p) = [].
Proof. unfold slice_from, len. rewrite Nat2Z.id. apply skipn_all. Qed.

Lemma slice_from_0 p : slice_from p 0 = p.
Proof. reflexivity. Qed.

Lemma slice_to_from p k : slice_to p k ++ slice_from p k = p.
Proof. apply firstn_skipn. Qed.

Lemma slice_to_app p q : slice_to (p ++ q) (len p) = p.
Proof.
  unfold slice_to, len. rewrite Nat2Z.id, firstn_app, firstn_all, Nat.sub_diag.
  simpl. apply app_nil_r.
Qed.

Lemma slice_from_app p q : slice_from (p ++ q) (len p) = q.
Proof.
  unfold slice_from, len. rewrite Nat2Z.id, skipn_app, skipn_all, Nat.sub_diag.
  reflexivity.
Qed.

Lemma slice_from_from p a b :
  0 <= a -> 0 <= b -> slice_from (slice_from p a) b = slice_from p (a + b).
Proof.
  intros Ha Hb. unfold slice_from. rewrite skipn_skipn. f_equal. lia.
Qed.

End SliceFacts.

Lemma len_make_bytes (n : Z) : 0 <= n -> len (make_bytes n) = n.
Proof. intros H. unfold len, make_bytes. rewrite repeat_length. lia. Qed.

Lemma slice_from_make_bytes (n k : Z) :
  0 <= k <= n -> slice_from (make_bytes n) k = make_bytes (n - k).
Proof.
  intros H. unfold slice_from, make_bytes.
  replace (Z.to_nat (n - k)) with (Z.to_nat n - Z.to_nat k)%nat by lia.
  generalize (Z.to_nat n) as b. generalize (Z.to_nat k) as a.
  induction a as [|a IH]; intros b.
  - now rewrite Nat.sub_0_r.
  - destruct b as [|b]; [reflexivity|]. simpl. apply IH.
Qed.

Lemma index_last {A : Type} (st : list A) (x : A) :
  index (st ++ [x]) (len (st ++ [x]) - 1) = Some x.
Proof.
  unfold index. rewrite len_app. change (len [x]) with 1.
  pose proof (len_nonneg st).
  destruct (Z.ltb_spec (len st + 1 - 1) 0); [lia|].
  replace (Z.to_nat (len st + 1 - 1)) with (length st) by (unfold len; lia).
  rewrite nth_error_app2, Nat.sub_diag by lia. reflexivity.
Qed.

Lemma slice_to_last {A : Type} (st : list A) (x : A) :
  slice_to (st ++ [x]) (len (st ++ [x]) - 1) = st.
Proof.
  rewrite len_app. change (len [x]) with 1.
  replace (len st + 1 - 1) with (len st) by lia. apply slice_to_app.
Qed.

(** Copying [data] to the front of [p[:k]] leaves the rest of [p] alone. *)
Lemma overwrite_front (p data : list byte) (k : Z) :
  len data <= k <= len p ->
  overwrite (slice_to p k) data ++ slice_from p k = data ++ slice_from p (len data).
Proof.
  intros H. pose proof (len_nonneg data) as Hd. unfold overwrite.
  assert (Hq : length (slice_to p k) = Z.to_nat k).
  { pose proof (len_slice_to p k ltac:(lia)) as E. unfold len in E. lia. }
  rewrite Hq, firstn_all2 by (unfold len in *; lia).
  rewrite <- app_assoc. f_equal.
  unfold slice_to, slice_from, len. rewrite Nat2Z.id.
  rewrite <- (firstn_skipn (Z.to_nat k) p) at 3.
  rewrite skipn_app, length_firstn.
  replace (length data - Nat.min (Z.to_nat k) (length p))%nat with 0%nat
    by (unfold len in *; lia).
  reflexivity.
Qed.

Lemma len_overwrite (p data : list byte) : len (overwrite p data) = len p.
Proof.
  unfold overwrite, len. rewrite length_app, length_firstn, length_skipn. lia.
Qed.

(* ------------------------------------------------------------------------- *)
(** ** One bounded pull *)

Section ReadFacts.

Context {S : Type} {source : ByteSource S}.
Implicit Types r : reader S.

Lemma Read_exhausted r p :
  BytesLeftUntilLimit r <= 0 ->
  Read r p = (0, (if len p =? 0 then None else Some EOF), p, r).
Proof.
  intros H. unfold Read.
  destruct (Z.leb_spec (BytesLeftUntilLimit r) 0); [|lia].
  destruct (len p =? 0); reflexivity.
Qed.

Lemma Read_open r p :
  0 < BytesLeftUntilLimit r ->
  let k := request r p in
  let res := fst (src_Read (in_ r) k) in
  Read r p =
    (res_n res, res_err res,
     overwrite (slice_to p k) (res_data res) ++ slice_from p k,
     mkReader (snd (src_Read (in_ r) k)) (bo r) (limit r)
              (if res_n res >=? 0 then Int64.add (bytesRead r) (res_n res)
               else bytesRead r)
              (limitStack r)).
Proof.
  intros H k res. subst res k. unfold Read, request.
  destruct (Z.leb_spec (BytesLeftUntilLimit r) 0); [lia|].
  pose proof (len_nonneg p) as Hp.
  rewrite Z.gtb_ltb.
  destruct (Z.ltb_spec (BytesLeftUntilLimit r) (len p)) as [Hlt|Hge].
  - rewrite Z.min_r by lia.
    rewrite len_slice_to by lia.
    destruct (src_Read (in_ r) (BytesLeftUntilLimit r)) as [res s'] eqn:E. simpl.
    repeat f_equal.
    pose proof (len_slice_to p (BytesLeftUntilLimit r) ltac:(lia)) as L.
    unfold slice_from, len in *. f_equal. lia.
  - rewrite Z.min_l by lia. rewrite slice_to_len.
    destruct (src_Read (in_ r) (len p)) as [res s'] eqn:E. simpl.
    repeat f_equal. unfold slice_from, len. now rewrite Nat2Z.id.
Qed.

(** The slice a pull returns is as long as the one it was given. *)
Lemma Read_len r p n e p' r' :
  Read r p = (n, e, p', r') -> len p' = len p.
Proof.
  destruct (Z.leb_spec (BytesLeftUntilLimit r) 0) as [H|H].
  - rewrite Read_exhausted by assumption. intros E. now inversion E.
  - rewrite Read_open by assumption. intros E. inversion E; subst.
    rewrite len_app, len_overwrite.
    pose proof (len_nonneg p). unfold request.
    rewrite len_slice_to, len_slice_from by lia. lia.
Qed.

(** A pull from a source that supplies [bs]. *)
Lemma Read_supplies r p bs :
  supplies (in_ r) bs ->
  0 < request r p <= len bs ->
  exists n e r',
    Read r p = (n, e, slice_to bs n ++ slice_from p n, r') /\
    0 < n <= request r p /\
    (n < len bs -> e = None) /\
    supplies (in_ r') (slice_from bs n) /\
    bytesRead r' = Int64.add (bytesRead r) n /\
    BytesLeftUntilLimit r' = BytesLeftUntilLimit r - n /\
    limit r' = limit r /\ limitStack r' = limitStack r /\ bo r' = bo r.
Proof.
  intros Hs Hk.
  assert (HB : 0 < BytesLeftUntilLimit r) by (unfold request in Hk; lia).
  inversion Hs as [s E1 E2 | s bs' Hne Hchunk Hrest E1 E2]; subst.
  { unfold len in Hk. simpl in Hk. lia. }
  specialize (Hchunk _ Hk). specialize (Hrest _ Hk).
  destruct Hchunk as (Hn & Hdata & Herr).
  set (res := fst (src_Read (in_ r) (request r p))) in *.
  exists (res_n res), (res_err res).
  eexists. rewrite Read_open by assumption. fold res.
  assert (Hlen : len (res_data res) = res_n res).
  { rewrite Hdata. apply len_slice_to. lia. }
  split.
  { f_equal. f_equal.
    rewrite overwrite_front by (unfold request in *; lia).
    now rewrite Hlen, Hdata. }
  destruct (Z.geb_spec (res_n res) 0); [|lia]. cbn [in_ bytesRead limit limitStack bo].
  repeat split; try lia; try assumption.
  unfold BytesLeftUntilLimit. cbn [limit bytesRead].
  apply Int64Facts.sub_add_consumed. unfold request, BytesLeftUntilLimit in *. lia.
Qed.

End ReadFacts.

(* ------------------------------------------------------------------------- *)
(** ** The loops, over a source that supplies the bytes *)

Section LoopFacts.

Context {S : Type} {source : ByteSource S}.
Implicit Types r : reader S.

Lemma ReadAtLeast_loop_unfold fuel r buf min n :
  ReadAtLeast_loop (Datatypes.S fuel) r buf min n =
    if n <? min then
      if (n <? 0) || (len buf <? n) then Panic
      else
        let '(nn, err, tail', r') := Read r (slice_from buf n) in
        match err with
        | None => ReadAtLeast_loop fuel r' (slice_to buf n ++ tail') min (n + nn)
        | Some _ => Ret (n + nn, ReadAtLeast_end (n + nn) min err,
                         slice_to buf n ++ tail', r')
        end
    else Ret (n, ReadAtLeast_end n min None, buf, r).
Proof. reflexivity. Qed.

Lemma ReadAtLeast_end_full n min err : min <= n -> ReadAtLeast_end n min err = None.
Proof. intros H. unfold ReadAtLeast_end. destruct (Z.geb_spec n min); [reflexivity | lia]. Qed.

Lemma ReadAtLeast_end_short n min e :
  n < min -> ReadAtLeast_end n min (Some e) <> None.
Proof.
  intros H. unfold ReadAtLeast_end. destruct (Z.geb_spec n min); [lia|].
  destruct e; try discriminate. destruct (n >? 0); discriminate.
Qed.

(** [done] is what the loop has filled so far, [todo] the rest of the buffer.
    The source supplies [bs], which either fills [todo] or lasts exactly until
    the limit. *)
Lemma ReadAtLeast_loop_supplies (m : nat) :
  forall bs r done todo min,
    (length bs <= m)%nat ->
    supplies (in_ r) bs ->
    Int64.in_range (bytesRead r) ->
    min = len done + len todo ->
    len bs = Z.min (len todo) (BytesLeftUntilLimit r) ->
    exists fuel err r',
      ReadAtLeast_loop fuel r (done ++ todo) min (len done) =
        Ret (len done + len bs, err, done ++ bs ++ slice_from todo (len bs), r') /\
      (len bs = len todo -> err = None) /\
      (len bs < len todo -> err <> None) /\
      bytesRead r' = Int64.add (bytesRead r) (len bs) /\
      BytesLeftUntilLimit r' = BytesLeftUntilLimit r - len bs /\
      limit r' = limit r /\ limitStack r' = limitStack r /\ bo r' = bo r.
Proof.
  induction m as [|m IH]; intros bs r done todo min Hm Hs Hb Hmin Hbs;
    pose proof (len_nonneg done) as Hd; pose proof (len_nonneg todo) as Ht;
    pose proof (len_nonneg bs) as Hl.
  - (* nothing to come *)
    destruct bs; [|simpl in Hm; lia]. change (len (@nil byte)) with 0 in *.
    destruct (Z.eq_dec (len todo) 0) as [Z0|NZ].
    + exists 0%nat, None, r. apply len_nil_inv in Z0. subst todo.
      change (len (@nil byte)) with 0 in *. simpl.
      destruct (Z.ltb_spec (len done) min); [lia|].
      rewrite ReadAtLeast_end_full by lia. rewrite Z.add_0_r.
      repeat split; try lia; try congruence.
      symmetry. now apply Int64Facts.add_0_r.
    + exists 1%nat, (ReadAtLeast_end (len done + 0) min (Some EOF)), r.
      rewrite ReadAtLeast_loop_unfold.
      destruct (Z.ltb_spec (len done) min); [|lia].
      destruct (Z.ltb_spec (len done) 0); [lia|].
      destruct (Z.ltb_spec (len (done ++ todo)) (len done));
        [rewrite len_app in *; lia|]. cbn [orb].
      rewrite slice_from_app, slice_to_app.
      rewrite Read_exhausted by lia.
      destruct (Z.eqb_spec (len todo) 0); [lia|].
      rewrite slice_from_0. cbn [app].
      repeat split; try lia; try congruence.
      * intros _. apply ReadAtLeast_end_short. lia.
      * symmetry. now apply Int64Facts.add_0_r.
  - destruct (Nat.eq_dec (length bs) 0) as [E0|NE].
    { apply (IH bs r done todo min); auto. lia. }
    assert (Hpos : 0 < len bs) by (unfold len; lia).
    destruct (Read_supplies r todo bs Hs) as
      (n1 & e & r1 & HR & Hn1 & He & Hs1 & Hb1 & HB1 & HL1 & HS1 & HO1).
    { unfold request. lia. }
    unfold request in Hn1.
    assert (Hrest : len (slice_from bs n1) = len bs - n1) by (apply len_slice_from; lia).
    destruct e as [e0|].
    + (* the last piece came with an error *)
      assert (n1 = len bs).
      { destruct (Z.lt_ge_cases n1 (len bs)) as [C|C]; [|lia].
        specialize (He C). discriminate. }
      subst n1.
      exists 1%nat, (ReadAtLeast_end (len done + len bs) min (Some e0)), r1.
      rewrite ReadAtLeast_loop_unfold.
      destruct (Z.ltb_spec (len done) min); [|lia].
      destruct (Z.ltb_spec (len done) 0); [lia|].
      destruct (Z.ltb_spec (len (done ++ todo)) (len done));
        [rewrite len_app in *; lia|]. cbn [orb].
      rewrite slice_from_app, slice_to_app, HR, slice_to_len.
      repeat split; try lia; try congruence.
      * intros. apply ReadAtLeast_end_full. lia.
      * intros. apply ReadAtLeast_end_short. lia.
    + (* more to come *)
      destruct (IH (slice_from bs n1) r1 (done ++ slice_to bs n1) (slice_from todo n1) min)
        as (fuel & err & r' & HL & Hfull & Hshort & Hb' & HB' & HL' & HS' & HO').
      { unfold len in Hrest, Hn1. lia. }
      { assumption. }
      { rewrite Hb1. apply Int64Facts.wrap_in_range. }
      { rewrite len_app, len_slice_to, len_slice_from by lia. lia. }
      { rewrite Hrest, len_slice_from, HB1 by lia. lia. }
      exists (Datatypes.S fuel), err, r'.
      rewrite ReadAtLeast_loop_unfold.
      destruct (Z.ltb_spec (len done) min); [|lia].
      destruct (Z.ltb_spec (len done) 0); [lia|].
      destruct (Z.ltb_spec (len (done ++ todo)) (len done));
        [rewrite len_app in *; lia|]. cbn [orb].
      rewrite slice_from_app, slice_to_app, HR.
      rewrite len_app, len_slice_to in HL by lia.
      rewrite app_assoc, HL.
      rewrite Hrest in *. rewrite len_slice_from in * by lia.
      split.
      { replace (len done + n1 + (len bs - n1)) with (len done + len bs) by lia.
        rewrite slice_from_from by lia.
        replace (n1 + (len bs - n1)) with (len bs) by lia.
        rewrite <- app_assoc, (app_assoc (slice_to bs n1)), slice_to_from.
        reflexivity. }
      repeat split; try congruence.
      * intros. apply Hfull. lia.
      * intros. apply Hshort. lia.
      * rewrite Hb', Hb1, Int64Facts.add_add. f_equal. lia.
      * lia.
Qed.

(** [io.ReadFull] into a fresh buffer of [n] bytes. *)
Lemma ReadFull_supplies r bs n :
  supplies (in_ r) bs ->
  Int64.in_range (bytesRead r) ->
  0 <= n ->
  len bs = Z.min n (BytesLeftUntilLimit r) ->
  exists fuel err r',
    ReadFull fuel r (make_bytes n) =
      Ret (len bs, err, bs ++ make_bytes (n - len bs), r') /\
    (len bs = n -> err = None) /\
    (len bs < n -> err <> None) /\
    bytesRead r' = Int64.add (bytesRead r) (len bs) /\
    BytesLeftUntilLimit r' = BytesLeftUntilLimit r - len bs /\
    limit r' = limit r /\ limitStack r' = limitStack r /\ bo r' = bo r.
Proof.
  intros Hs Hb Hn Hbs. pose proof (len_nonneg bs) as Hl.
  destruct (ReadAtLeast_loop_supplies (length bs) bs r [] (make_bytes n) n)
    as (fuel & err & r' & HL & Hrest); auto.
  { now rewrite len_make_bytes. }
  { now rewrite len_make_bytes. }
  exists fuel, err, r'. rewrite len_make_bytes in Hrest by lia. split; [|exact Hrest].
  unfold ReadFull, ReadAtLeast. rewrite Z.ltb_irrefl, len_make_bytes by lia.
  cbn [app] in HL. change (len (@nil byte)) with 0 in HL. rewrite HL.
  rewrite slice_from_make_bytes by lia. reflexivity.
Qed.

(** One read through [io.LimitReader(r, len bs)]. *)
Lemma LimitedReader_Read_supplies r bs p :
  supplies (in_ r) bs ->
  0 < len bs <= BytesLeftUntilLimit r ->
  0 < len p ->
  exists n e p' r',
    LimitedReader_Read r (len bs) p = (n, e, p', r', len bs - n) /\
    len p' = len p /\
    0 < n <= len bs /\
    (n < len bs -> e = None) /\
    supplies (in_ r') (slice_from bs n) /\
    bytesRead r' = Int64.add (bytesRead r) n /\
    BytesLeftUntilLimit r' = BytesLeftUntilLimit r - n /\
    limit r' = limit r /\ limitStack r' = limitStack r /\ bo r' = bo r.
Proof.
  intros Hs Hbs Hp. unfold LimitedReader_Read.
  destruct (Z.leb_spec (len bs) 0); [lia|].
  set (q := if len p >? len bs then slice_to p (len bs) else p).
  assert (Hq : len q = Z.min (len p) (len bs)).
  { subst q. rewrite Z.gtb_ltb. destruct (Z.ltb_spec (len bs) (len p)).
    - rewrite len_slice_to; lia.
    - lia. }
  destruct (Read_supplies r q bs Hs) as
    (n & e & r' & HR & Hn & He & Hrest); [unfold request; lia|].
  unfold request in Hn. rewrite HR.
  exists n, e. eexists. exists r'. split; [|split; [|split; [lia|split; [exact He|exact Hrest]]]].
  - f_equal. apply Int64Facts.sub_exact.
    pose proof (Int64Facts.wrap_in_range (limit r - bytesRead r)) as R.
    unfold BytesLeftUntilLimit, Int64.sub, Int64.in_range, Int64.min_int, Int64.max_int in *. lia.
  - pose proof (Read_len _ _ _ _ _ _ HR) as L.
    rewrite len_app, L. unfold len at 2. rewrite length_skipn. unfold len in *. lia.
Qed.

(** The [ReadFrom] of [ioutil.Discard], reading through the limited reader. *)
Lemma discard_ReadFrom_supplies (m : nat) :
  forall bs r buf acc,
    (length bs <= m)%nat ->
    supplies (in_ r) bs ->
    Int64.in_range (bytesRead r) ->
    len bs <= BytesLeftUntilLimit r ->
    0 < len buf ->
    0 <= acc -> acc + len bs <= Int64.max_int ->
    exists fuel err r',
      discard_ReadFrom fuel r (len bs) buf acc = Ret (acc + len bs, err, r') /\
      bytesRead r' = Int64.add (bytesRead r) (len bs) /\
      BytesLeftUntilLimit r' = BytesLeftUntilLimit r - len bs /\
      limit r' = limit r /\ limitStack r' = limitStack r /\ bo r' = bo r.
Proof.
  induction m as [|m IH]; intros bs r buf acc Hm Hs Hb Hbs Hbuf Hacc Hmax;
    pose proof (len_nonneg bs) as Hl.
  - destruct bs; [|simpl in Hm; lia]. change (len (@nil byte)) with 0 in *.
    exists 1%nat, None, r. cbn.
    rewrite !Int64Facts.add_0_r, Z.add_0_r;
      [repeat split; lia | assumption
       | unfold Int64.in_range, Int64.min_int, Int64.max_int in *; lia].
  - destruct (Nat.eq_dec (length bs) 0) as [E0|NE].
    { apply IH; auto. lia. }
    assert (Hpos : 0 < len bs) by (unfold len; lia).
    destruct (LimitedReader_Read_supplies r bs buf Hs) as
      (n1 & e & buf' & r1 & HR & Hlb & Hn1 & He & Hs1 & Hb1 & HB1 & HL1 & HS1 & HO1);
      [lia | lia |].
    assert (Hrest : len (slice_from bs n1) = len bs - n1) by (apply len_slice_from; lia).
    assert (Hadd : Int64.add acc n1 = acc + n1).
    { apply Int64Facts.add_exact.
      unfold Int64.in_range, Int64.min_int, Int64.max_int in *. lia. }
    destruct e as [e0|].
    + assert (n1 = len bs).
      { destruct (Z.lt_ge_cases n1 (len bs)) as [C|C]; [|lia].
        specialize (He C). discriminate. }
      subst n1.
      exists 1%nat, (match e0 with EOF => None | _ => Some e0 end), r1.
      cbn [discard_ReadFrom]. rewrite HR, Hadd.
      split; [destruct e0; reflexivity|]. repeat split; congruence.
    + destruct (IH (slice_from bs n1) r1 buf' (acc + n1))
        as (fuel & err & r' & HD & Hb' & HB' & HL' & HS' & HO'); try lia; auto.
      { unfold len in Hrest, Hn1. lia. }
      { rewrite Hb1. apply Int64Facts.wrap_in_range. }
      exists (Datatypes.S fuel), err, r'.
      cbn [discard_ReadFrom]. rewrite HR, Hadd.
      rewrite Hrest in *. rewrite HD.
      split; [do 2 f_equal; f_equal; lia|].
      repeat split; try congruence.
      * rewrite Hb', Hb1, Int64Facts.add_add. f_equal. lia.
      * lia.
Qed.

(** [Skip] over bytes the source supplies. *)
Lemma Skip_supplies r bs :
  supplies (in_ r) bs ->
  Int64.in_range (bytesRead r) ->
  len bs <= BytesLeftUntilLimit r ->
  exists fuel r',
    Skip fuel r (len bs) = Ret (None, r') /\
    bytesRead r' = Int64.add (bytesRead r) (len bs) /\
    BytesLeftUntilLimit r' = BytesLeftUntilLimit r - len bs /\
    limit r' = limit r /\ limitStack r' = limitStack r /\ bo r' = bo r.
Proof.
  intros Hs Hb Hbs.
  pose proof (Int64Facts.wrap_in_range (limit r - bytesRead r)) as R.
  destruct (discard_ReadFrom_supplies (length bs) bs r blackHole 0)
    as (fuel & err & r' & HD & Hrest); auto; try lia.
  { unfold blackHole. rewrite len_make_bytes; lia. }
  { unfold BytesLeftUntilLimit, Int64.sub, Int64.in_range, Int64.min_int, Int64.max_int in *. lia. }
  exists fuel, r'. split; [|exact Hrest].
  unfold Skip. destruct (Z.ltb_spec (BytesLeftUntilLimit r) (len bs)); [lia|].
  unfold CopyN_Discard. rewrite HD. cbn [bind]. rewrite Z.add_0_l, Z.eqb_refl.
  reflexivity.
Qed.

(** [PopLimit] when the source supplies what is left of the scope. *)
Lemma PopLimit_supplies r bs st l0 :
  limitStack r = st ++ [l0] ->
  supplies (in_ r) bs ->
  Int64.in_range (bytesRead r) ->
  Int64.in_range (limit r) ->
  bytesRead r <= limit r ->
  len bs = BytesLeftUntilLimit r ->
  exists fuel r',
    PopLimit fuel r = Ret r' /\
    bytesRead r' = limit r /\ limit r' = l0 /\ limitStack r' = st /\ bo r' = bo r.
Proof.
  intros Hst Hs Hb Hl Hle Hbs. unfold PopLimit.
  destruct (Z.ltb_spec (bytesRead r) (limit r)) as [Hlt|Hge].
  - change (Int64.sub (limit r) (bytesRead r)) with (BytesLeftUntilLimit r).
    rewrite <- Hbs.
    destruct (Skip_supplies r bs Hs Hb) as (fuel & r1 & HS & Hb1 & _ & HL1 & HS1 & HO1);
      [lia|].
    exists fuel. rewrite HS. cbn [bind]. rewrite HS1, Hst, index_last, slice_to_last.
    eexists. split; [reflexivity|]. cbn [bytesRead limit limitStack bo].
    repeat split; auto.
    rewrite Hb1, Hbs. unfold BytesLeftUntilLimit, Int64.add, Int64.sub.
    rewrite Int64Facts.wrap_add_inner.
    replace (bytesRead r + (limit r - bytesRead r)) with (limit r) by lia.
    now apply Int64Facts.wrap_exact.
  - exists 0%nat. cbn [bind]. rewrite Hst, index_last, slice_to_last.
    eexists. split; [reflexivity|]. cbn [bytesRead limit limitStack bo].
    repeat split; auto. lia.
Qed.

End LoopFacts.

(* ------------------------------------------------------------------------- *)
(** ** The loops, over any source that honours the contract of [io.Reader] *)

Section ContractFacts.

Context {S : Type} {source : ByteSource S}.
Implicit Types r : reader S.

Hypothesis contract : honours_contract.

Lemma pulled_refl r : Int64.in_range (bytesRead r) -> pulled r 0 r.
Proof.
  intros H. unfold pulled. rewrite Int64Facts.add_0_r by assumption.
  repeat split; lia.
Qed.

Lemma pulled_trans r d1 r1 d2 r2 :
  pulled r d1 r1 -> pulled r1 d2 r2 -> pulled r (d1 + d2) r2.
Proof.
  unfold pulled. intros (H1 & B1 & L1 & E1 & E2 & E3) (H2 & B2 & L2 & F1 & F2 & F3).
  rewrite B2, B1, Int64Facts.add_add, L2, L1.
  repeat split; try congruence; lia.
Qed.

Lemma pulled_in_range r d r' : pulled r d r' -> Int64.in_range (bytesRead r').
Proof. intros (_ & B & _). rewrite B. apply Int64Facts.wrap_in_range. Qed.

(** Without overflow the cursor only moves forward, and never past the limit
    it was below. *)
Lemma pulled_monotone r d r' :
  no_overflow r -> pulled r d r' ->
  bytesRead r' = bytesRead r + d /\ no_overflow r'.
Proof.
  intros (Rb & Rl & Rd) (Hd & B & L & E1 & _).
  assert (HB : BytesLeftUntilLimit r = limit r - bytesRead r)
    by now apply Int64Facts.sub_exact.
  assert (Hx : bytesRead r' = bytesRead r + d).
  { rewrite B. apply Int64Facts.add_exact.
    unfold Int64.in_range, Int64.min_int, Int64.max_int in *. lia. }
  split; [exact Hx|]. unfold no_overflow. rewrite E1, Hx.
  unfold Int64.in_range, Int64.min_int, Int64.max_int in *. lia.
Qed.

Lemma Read_pulled r p n e p' r' :
  Int64.in_range (bytesRead r) ->
  Read r p = (n, e, p', r') ->
  pulled r n r' /\ n <= len p /\ len p' = len p /\ slice_from p' n = slice_from p n.
Proof.
  intros Hb HR. pose proof (Read_len _ _ _ _ _ _ HR) as HL.
  pose proof (len_nonneg p) as Hp.
  destruct (Z.leb_spec (BytesLeftUntilLimit r) 0) as [H|H].
  - rewrite Read_exhausted in HR by assumption. inversion HR; subst.
    split; [now apply pulled_refl|]. repeat split; lia.
  - rewrite Read_open in HR by assumption.
    assert (Hk : 0 <= request r p) by (unfold request; lia).
    destruct (contract (in_ r) (request r p) Hk) as (Hn & Hdata).
    set (res := fst (src_Read (in_ r) (request r p))) in *.
    rewrite overwrite_front in HR by (unfold request in *; lia).
    inversion HR; subst. clear HR.
    destruct (Z.geb_spec (res_n res) 0); [|lia].
    split; [|split; [unfold request in *; lia|split; [assumption|]]].
    + unfold pulled. cbn [in_ bytesRead limit limitStack bo].
      repeat split; try lia; [unfold request in *; lia|].
      unfold BytesLeftUntilLimit. cbn [limit bytesRead].
      apply Int64Facts.sub_add_consumed. unfold request, BytesLeftUntilLimit in *. lia.
    + rewrite <- Hdata at 1. rewrite slice_from_app. now rewrite Hdata.
Qed.

Lemma ReadAtLeast_loop_pulled (fuel : nat) :
  forall r buf n n' err buf' r',
    Int64.in_range (bytesRead r) ->
    0 <= n <= len buf ->
    ReadAtLeast_loop fuel r buf (len buf) n = Ret (n', err, buf', r') ->
    n <= n' <= len buf /\ pulled r (n' - n) r' /\
    len buf' = len buf /\ slice_from buf' n' = slice_from buf n' /\
    (err = None <-> n' = len buf).
Proof.
  induction fuel as [|fuel IH]; intros r buf n n' err buf' r' Hb Hn HL.
  - simpl in HL. destruct (Z.ltb_spec n (len buf)); [discriminate|].
    inversion HL; subst. rewrite Z.sub_diag.
    rewrite ReadAtLeast_end_full by lia.
    split; [lia|]. split; [now apply pulled_refl|]. repeat split; auto; lia.
  - rewrite ReadAtLeast_loop_unfold in HL.
    destruct (Z.ltb_spec n (len buf)) as [Hlt|Hge].
    2:{ inversion HL; subst. rewrite Z.sub_diag.
        rewrite ReadAtLeast_end_full by lia.
        split; [lia|]. split; [now apply pulled_refl|]. repeat split; auto; lia. }
    destruct (Z.ltb_spec n 0); [lia|].
    destruct (Z.ltb_spec (len buf) n); [lia|]. cbn [orb] in HL.
    destruct (Read r (slice_from buf n)) as [[[nn e] tail'] r1] eqn:HR.
    destruct (Read_pulled _ _ _ _ _ _ Hb HR) as (P1 & Hnn & Htl & Hsl).
    rewrite len_slice_from in Hnn, Htl by lia.
    assert (Hnn0 : 0 <= nn) by (destruct P1 as ((? & _) & _); lia).
    set (buf1 := slice_to buf n ++ tail') in *.
    assert (L1 : len buf1 = len buf).
    { subst buf1. rewrite len_app, len_slice_to, Htl by lia. lia. }
    assert (S1 : slice_from buf1 (n + nn) = slice_from buf (n + nn)).
    { subst buf1. rewrite <- (len_slice_to buf n) at 2 by lia.
      rewrite <- slice_from_from, slice_from_app by (try apply len_nonneg; lia).
      rewrite Hsl. apply slice_from_from; lia. }
    destruct e as [e0|].
    + inversion HL; subst. clear HL.
      replace (n + nn - n) with nn by lia.
      split; [lia|]. split; [assumption|]. split; [assumption|].
      split; [assumption|]. split.
      * intros E. destruct (Z.lt_ge_cases (n + nn) (len buf)) as [C|C]; [|lia].
        exfalso. revert E. now apply ReadAtLeast_end_short.
      * intros E. apply ReadAtLeast_end_full. lia.
    + rewrite <- L1 in HL.
      apply IH in HL; [|eapply pulled_in_range; eassumption|lia].
      destruct HL as (Hn' & P2 & L2 & S2 & Herr).
      rewrite L1 in *.
      split; [lia|]. split; [|split; [assumption|split; [|assumption]]].
      * replace (n' - n) with (nn + (n' - (n + nn))) by lia.
        eapply pulled_trans; eassumption.
      * rewrite S2.
        replace n' with ((n + nn) + (n' - (n + nn))) by lia.
        rewrite <- (slice_from_from buf1 (n + nn) (n' - (n + nn))) by lia.
        rewrite <- (slice_from_from buf (n + nn) (n' - (n + nn))) by lia.
        now rewrite S1.
Qed.

Lemma ReadFull_pulled fuel r buf n' err buf' r' :
  Int64.in_range (bytesRead r) ->
  ReadFull fuel r buf = Ret (n', err, buf', r') ->
  0 <= n' <= len buf /\ pulled r n' r' /\
  len buf' = len buf /\ slice_from buf' n' = slice_from buf n' /\
  (err = None <-> n' = len buf).
Proof.
  intros Hb HF. unfold ReadFull, ReadAtLeast in HF. rewrite Z.ltb_irrefl in HF.
  pose proof (len_nonneg buf).
  apply ReadAtLeast_loop_pulled in HF; [|assumption|lia].
  now rewrite Z.sub_0_r in HF.
Qed.

Lemma LimitedReader_Read_pulled r N p n e p' r' N' :
  Int64.in_range (bytesRead r) ->
  LimitedReader_Read r N p = (n, e, p', r', N') ->
  pulled r n r' /\
  (N <= 0 -> n = 0 /\ e = Some EOF) /\
  (Int64.in_range N -> n <= Z.max 0 N /\ N' = N - n).
Proof.
  intros Hb HR. unfold LimitedReader_Read in HR.
  destruct (Z.leb_spec N 0) as [HN|HN].
  - inversion HR; subst. split; [now apply pulled_refl|].
    split; [auto|]. intros _. lia.
  - set (q := if len p >? N then slice_to p N else p) in *.
    destruct (Read r q) as [[[n1 e1] q'] r1] eqn:HQ. inversion HR; subst. clear HR.
    destruct (Read_pulled _ _ _ _ _ _ Hb HQ) as (P & Hn & _).
    split; [exact P|]. split; [lia|]. intros RN.
    assert (Hq : len q <= N).
    { subst q. rewrite Z.gtb_ltb. destruct (Z.ltb_spec N (len p)).
      - rewrite len_slice_to; lia.
      - lia. }
    assert (0 <= n /\ n <= N) as Hn0 by (destruct P as ((? & _) & _); lia).
    split; [lia|]. apply Int64Facts.sub_exact.
    unfold Int64.in_range, Int64.min_int, Int64.max_int in *. lia.
Qed.

Lemma discard_ReadFrom_pulled (fuel : nat) :
  forall r N buf acc written err r',
    Int64.in_range (bytesRead r) ->
    discard_ReadFrom fuel r N buf acc = Ret (written, err, r') ->
    exists d, pulled r d r' /\ written = Int64.add acc d /\
              (Int64.in_range N -> d <= Z.max 0 N).
Proof.
  induction fuel as [|fuel IH]; intros r N buf acc written err r' Hb HD;
    [discriminate|].
  cbn [discard_ReadFrom] in HD.
  destruct (LimitedReader_Read r N buf) as [[[[n e] buf1] r1] N1] eqn:HL.
  destruct (LimitedReader_Read_pulled _ _ _ _ _ _ _ _ Hb HL) as (P & H0 & HN).
  destruct e as [e0|].
  - exists n. assert (written = Int64.add acc n /\ r' = r1) as [-> ->]
      by (destruct e0; inversion HD; auto).
    split; [assumption|]. split; [reflexivity|]. intros RN. now apply HN.
  - apply IH in HD; [|eapply pulled_in_range; eassumption].
    destruct HD as (d & P' & Hw & Hd).
    exists (n + d). split; [eapply pulled_trans; eassumption|].
    split; [now rewrite Hw, Int64Facts.add_add|].
    intros RN. destruct (HN RN) as (Hn & ->).
    assert (0 <= n) by (destruct P as ((? & _) & _); lia).
    assert (Int64.in_range (N - n))
      by (unfold Int64.in_range, Int64.min_int, Int64.max_int in *; lia).
    specialize (Hd ltac:(assumption)). lia.
Qed.

(** [Skip] either refuses and leaves the reader alone, or pulls some bytes;
    when it reports success for a count that is not negative, it pulled
    exactly that many. *)
Lemma Skip_pulled fuel r n err r' :
  Int64.in_range (bytesRead r) ->
  Skip fuel r n = Ret (err, r') ->
  exists d, pulled r d r' /\
            (Int64.in_range n -> 0 <= n -> err = None -> d = n).
Proof.
  intros Hb HS. unfold Skip in HS.
  destruct (Z.ltb_spec (BytesLeftUntilLimit r) n) as [Hlt|Hge].
  - inversion HS; subst. exists 0. split; [now apply pulled_refl|]. discriminate.
  - unfold CopyN_Discard in HS.
    destruct (discard_ReadFrom fuel r n blackHole 0) as [[[w e] r1]| |] eqn:HD;
      try discriminate.
    cbn [bind] in HS.
    destruct (discard_ReadFrom_pulled _ _ _ _ _ _ _ _ Hb HD) as (d & P & Hw & Hd).
    exists d.
    assert (Hwd : w = d).
    { rewrite Hw. apply Int64Facts.add_exact.
      pose proof (Int64Facts.wrap_in_range (limit r - bytesRead r)) as R.
      destruct P as (Hd0 & _).
      unfold BytesLeftUntilLimit, Int64.sub, Int64.in_range, Int64.min_int,
        Int64.max_int in *. lia. }
    destruct (Z.eqb_spec w n) as [Heq|Hne].
    + inversion HS; subst. split; [assumption|]. auto.
    + destruct e as [e0|].
      * inversion HS; subst. split; [assumption|]. discriminate.
      * destruct (Z.ltb_spec w n).
        -- inversion HS; subst. split; [assumption|]. discriminate.
        -- inversion HS; subst. split; [assumption|].
           intros RN Hn _. specialize (Hd RN). lia.
Qed.

(** Every operation leaves the cursor where it was or moves it forward by a
    count of bytes of the current scope. *)
Lemma run_advances fuel o r r' :
  Int64.in_range (bytesRead r) ->
  run fuel o r = Ret r' ->
  exists d, 0 <= d <= Z.max 0 (BytesLeftUntilLimit r) /\
            bytesRead r' = Int64.add (bytesRead r) d.
Proof.
  intros Hb HR.
  assert (Hsame : bytesRead r' = bytesRead r ->
                  exists d, 0 <= d <= Z.max 0 (BytesLeftUntilLimit r) /\
                            bytesRead r' = Int64.add (bytesRead r) d).
  { intros E. exists 0. rewrite Int64Facts.add_0_r by assumption. split; [lia|exact E]. }
  assert (Hfull : forall size dec v e,
             binary_Read fuel r size dec = Ret (v, e, r') ->
             exists d, pulled r d r').
  { intros size dec v e HB. unfold binary_Read in HB.
    destruct (ReadFull fuel r (make_bytes size)) as [[[[n1 e1] b1] r1]| |] eqn:HF;
      try discriminate.
    cbn [bind] in HB.
    apply (ReadFull_pulled _ _ _ _ _ _ _ Hb) in HF. destruct HF as (_ & P & _).
    exists n1. destruct e1; inversion HB; subst; assumption. }
  assert (Hp : forall d, pulled r d r' ->
                exists d, 0 <= d <= Z.max 0 (BytesLeftUntilLimit r) /\
                          bytesRead r' = Int64.add (bytesRead r) d).
  { intros d (Hd & B & _). exists d. auto. }
  destruct o; cbn [run] in HR.
  - destruct (Read r p) as [[[n e] p'] r1] eqn:HRd. inversion HR; subst.
    destruct (Read_pulled _ _ _ _ _ _ Hb HRd) as (P & _). eauto.
  - unfold ReadUInt16 in HR.
    destruct (binary_Read fuel r 2 Uint16) as [[[v e] r1]| |] eqn:HB; try discriminate.
    inversion HR; subst. destruct (Hfull _ _ _ _ HB). eauto.
  - unfold ReadUInt32 in HR.
    destruct (binary_Read fuel r 4 Uint32) as [[[v e] r1]| |] eqn:HB; try discriminate.
    inversion HR; subst. destruct (Hfull _ _ _ _ HB). eauto.
  - unfold ReadInt16 in HR.
    destruct (binary_Read fuel r 2 _) as [[[v e] r1]| |] eqn:HB; try discriminate.
    inversion HR; subst. destruct (Hfull _ _ _ _ HB). eauto.
  - unfold ReadInt32 in HR.
    destruct (binary_Read fuel r 4 _) as [[[v e] r1]| |] eqn:HB; try discriminate.
    inversion HR; subst. destruct (Hfull _ _ _ _ HB). eauto.
  - unfold ReadString in HR.
    destruct (ReadFull fuel r (make_bytes n)) as [[[[n1 e1] b1] r1]| |] eqn:HF;
      try discriminate.
    cbn [bind] in HR. inversion HR; subst.
    apply (ReadFull_pulled _ _ _ _ _ _ _ Hb) in HF. destruct HF as (_ & P & _). eauto.
  - destruct (Skip fuel r n) as [[e r1]| |] eqn:HS; try discriminate.
    cbn [bind] in HR. inversion HR; subst.
    destruct (Skip_pulled _ _ _ _ _ Hb HS) as (d & P & _). eauto.
  - inversion HR; subst. apply Hsame. unfold PushLimit.
    destruct (Int64.add (bytesRead r) n >? limit r); reflexivity.
  - unfold PopLimit in HR.
    destruct (bytesRead r <? limit r).
    + destruct (Skip fuel r (Int64.sub (limit r) (bytesRead r))) as [[e r1]| |] eqn:HS;
        try discriminate.
      cbn [bind] in HR.
      destruct (index (limitStack r1) (len (limitStack r1) - 1)); try discriminate.
      inversion HR; subst. cbn [bytesRead].
      destruct (Skip_pulled _ _ _ _ _ Hb HS) as (d & P & _).
      destruct P as (Hd & B & _). eauto.
    + cbn [bind] in HR.
      destruct (index (limitStack r) (len (limitStack r) - 1)); try discriminate.
      inversion HR; subst. now apply Hsame.
  - inversion HR; subst. now apply Hsame.
  - inversion HR; subst. now apply Hsame.
Qed.

End ContractFacts.

(* ------------------------------------------------------------------------- *)
(** ** What no operation touches, whatever the source does *)

Section FrameFacts.

Context {S : Type} {source : ByteSource S}.
Implicit Types r : reader S.

Lemma Read_same_scope r p n e p' r' :
  Read r p = (n, e, p', r') -> same_scope r r'.
Proof.
  unfold Read, same_scope.
  destruct (BytesLeftUntilLimit r <=? 0).
  - destruct (len p =? 0); intros E; inversion E; subst; auto.
  - destruct (src_Read _ _) as [res s']. intros E. inversion E; subst. auto.
Qed.

Lemma discard_ReadFrom_same_scope (fuel : nat) :
  forall r N buf acc w e r',
    discard_ReadFrom fuel r N buf acc = Ret (w, e, r') -> same_scope r r'.
Proof.
  induction fuel as [|fuel IH]; intros r N buf acc w e r' HD; [discriminate|].
  cbn [discard_ReadFrom] in HD. unfold LimitedReader_Read in HD.
  destruct (N <=? 0).
  - inversion HD; subst. unfold same_scope. auto.
  - destruct (Read r _) as [[[n1 e1] q'] r1] eqn:HR.
    apply Read_same_scope in HR. destruct HR as (L1 & S1 & O1).
    assert (Hend : r' = r1 -> same_scope r r') by (intros ->; unfold same_scope; auto).
    destruct e1 as [e0|].
    + apply Hend. destruct e0; now inversion HD.
    + apply IH in HD. destruct HD as (L2 & S2 & O2).
      unfold same_scope. repeat split; congruence.
Qed.

Lemma Skip_same_scope fuel r n e r' :
  Skip fuel r n = Ret (e, r') -> same_scope r r'.
Proof.
  unfold Skip, CopyN_Discard. intros HS.
  destruct (BytesLeftUntilLimit r <? n).
  - inversion HS; subst. unfold same_scope. auto.
  - destruct (discard_ReadFrom fuel r n blackHole 0) as [[[w e1] r1]| |] eqn:HD;
      try discriminate.
    apply discard_ReadFrom_same_scope in HD. cbn [bind] in HS.
    destruct (w =? n); [now inversion HS; subst|].
    destruct e1; [now inversion HS; subst|].
    destruct (w <? n); now inversion HS; subst.
Qed.

End FrameFacts.

(* ------------------------------------------------------------------------- *)
(** ** The cursor is only ever moved forward, whatever the source does *)

Section AdvanceFacts.

Context {S : Type} {source : ByteSource S}.
Implicit Types r : reader S.

Lemma advanced_refl r : Int64.in_range (bytesRead r) -> advanced r r.
Proof. intros H. exists 0. split; [lia|]. symmetry. now apply Int64Facts.add_0_r. Qed.

Lemma advanced_trans r r1 r2 : advanced r r1 -> advanced r1 r2 -> advanced r r2.
Proof.
  intros (d1 & H1 & E1) (d2 & H2 & E2). exists (d1 + d2). split; [lia|].
  now rewrite E2, E1, Int64Facts.add_add.
Qed.

Lemma advanced_in_range r r' : advanced r r' -> Int64.in_range (bytesRead r').
Proof. intros (d & _ & E). rewrite E. apply Int64Facts.wrap_in_range. Qed.

(** The guard [n >= 0] of [Read]: a source that reports a negative count
    does not move the cursor back. *)
Lemma Read_advanced r p n e p' r' :
  Int64.in_range (bytesRead r) -> Read r p = (n, e, p', r') -> advanced r r'.
Proof.
  intros Hb. unfold Read. destruct (BytesLeftUntilLimit r <=? 0).
  - destruct (len p =? 0); intros E; inversion E; subst; now apply advanced_refl.
  - destruct (src_Read _ _) as [res s']. intros E. inversion E; subst. clear E.
    destruct (Z.geb_spec (res_n res) 0).
    + exists (res_n res). split; [lia | reflexivity].
    + exists 0. split; [lia|]. cbn [bytesRead]. symmetry. now apply Int64Facts.add_0_r.
Qed.

Lemma ReadAtLeast_loop_advanced (fuel : nat) :
  forall r buf min n x r',
    Int64.in_range (bytesRead r) ->
    ReadAtLeast_loop fuel r buf min n = Ret (x, r') -> advanced r r'.
Proof.
  induction fuel as [|fuel IH]; intros r buf min n x r' Hb H.
  - cbn in H. destruct (n <? min); [discriminate|]. inversion H; subst.
    now apply advanced_refl.
  - rewrite ReadAtLeast_loop_unfold in H.
    destruct (n <? min); [|inversion H; subst; now apply advanced_refl].
    destruct ((n <? 0) || (len buf <? n)); [discriminate|].
    destruct (Read r (slice_from buf n)) as [[[nn e] tail'] r1] eqn:HR.
    apply (Read_advanced _ _ _ _ _ _ Hb) in HR.
    destruct e.
    + inversion H; subst. assumption.
    + apply IH in H; [|eapply advanced_in_range; eassumption].
      eapply advanced_trans; eassumption.
Qed.

Lemma ReadFull_advanced fuel r buf x r' :
  Int64.in_range (bytesRead r) -> ReadFull fuel r buf = Ret (x, r') -> advanced r r'.
Proof.
  unfold ReadFull, ReadAtLeast. intros Hb. destruct (len buf <? len buf).
  - intros H. inversion H; subst. now apply advanced_refl.
  - now apply ReadAtLeast_loop_advanced.
Qed.

Lemma discard_ReadFrom_advanced (fuel : nat) :
  forall r N buf acc x r',
    Int64.in_range (bytesRead r) ->
    discard_ReadFrom fuel r N buf acc = Ret (x, r') -> advanced r r'.
Proof.
  induction fuel as [|fuel IH]; intros r N buf acc x r' Hb H; [discriminate|].
  cbn [discard_ReadFrom] in H. unfold LimitedReader_Read in H.
  destruct (N <=? 0).
  - inversion H; subst. now apply advanced_refl.
  - destruct (Read r _) as [[[n1 e1] q'] r1] eqn:HR.
    apply (Read_advanced _ _ _ _ _ _ Hb) in HR.
    destruct e1 as [e0|].
    + assert (r' = r1) as -> by (destruct e0; now inversion H). assumption.
    + apply IH in H; [|eapply advanced_in_range; eassumption].
      eapply advanced_trans; eassumption.
Qed.

Lemma Skip_advanced fuel r n e r' :
  Int64.in_range (bytesRead r) -> Skip fuel r n = Ret (e, r') -> advanced r r'.
Proof.
  unfold Skip, CopyN_Discard. intros Hb H.
  destruct (BytesLeftUntilLimit r <? n).
  - inversion H; subst. now apply advanced_refl.
  - destruct (discard_ReadFrom fuel r n blackHole 0) as [[[w e1] r1]| |] eqn:HD;
      try discriminate.
    apply (discard_ReadFrom_advanced _ _ _ _ _ _ _ Hb) in HD. cbn [bind] in H.
    destruct (w =? n); [now inversion H; subst|].
    destruct e1; [now inversion H; subst|].
    destruct (w <? n); now inversion H; subst.
Qed.

(** Every operation that returns has left the cursor alone or moved it
    forward. *)
Lemma run_advanced fuel o r r' :
  Int64.in_range (bytesRead r) -> run fuel o r = Ret r' -> advanced r r'.
Proof.
  intros Hb HR.
  assert (Hsame : bytesRead r' = bytesRead r -> advanced r r').
  { intros E. exists 0. rewrite Int64Facts.add_0_r by assumption. split; [lia|exact E]. }
  assert (Hbin : forall size dec v e,
             binary_Read fuel r size dec = Ret (v, e, r') -> advanced r r').
  { intros size dec v e HB. unfold binary_Read in HB.
    destruct (ReadFull fuel r (make_bytes size)) as [[[[n1 e1] b1] r1]| |] eqn:HF;
      try discriminate.
    cbn [bind] in HB. apply (ReadFull_advanced _ _ _ _ _ Hb) in HF.
    destruct e1; inversion HB; subst; assumption. }
  destruct o; cbn [run] in HR.
  - destruct (Read r p) as [[[n e] p'] r1] eqn:HRd. inversion HR; subst.
    now apply (Read_advanced _ _ _ _ _ _ Hb HRd).
  - unfold ReadUInt16 in HR.
    destruct (binary_Read fuel r 2 Uint16) as [[[v e] r1]| |] eqn:HB; try discriminate.
    inversion HR; subst. eauto.
  - unfold ReadUInt32 in HR.
    destruct (binary_Read fuel r 4 Uint32) as [[[v e] r1]| |] eqn:HB; try discriminate.
    inversion HR; subst. eauto.
  - unfold ReadInt16 in HR.
    destruct (binary_Read fuel r 2 _) as [[[v e] r1]| |] eqn:HB; try discriminate.
    inversion HR; subst. eauto.
  - unfold ReadInt32 in HR.
    destruct (binary_Read fuel r 4 _) as [[[v e] r1]| |] eqn:HB; try discriminate.
    inversion HR; subst. eauto.
  - unfold ReadString in HR.
    destruct (ReadFull fuel r (make_bytes n)) as [[[[n1 e1] b1] r1]| |] eqn:HF;
      try discriminate.
    cbn [bind] in HR. inversion HR; subst.
    now apply (ReadFull_advanced _ _ _ _ _ Hb HF).
  - destruct (Skip fuel r n) as [[e r1]| |] eqn:HS; try discriminate.
    cbn [bind] in HR. inversion HR; subst.
    now apply (Skip_advanced _ _ _ _ _ Hb HS).
  - inversion HR; subst. apply Hsame. unfold PushLimit.
    destruct (Int64.add (bytesRead r) n >? limit r); reflexivity.
  - unfold PopLimit in HR.
    destruct (bytesRead r <? limit r).
    + destruct (Skip fuel r (Int64.sub (limit r) (bytesRead r))) as [[e r1]| |] eqn:HS;
        try discriminate.
      cbn [bind] in HR.
      destruct (index (limitStack r1) (len (limitStack r1) - 1)); try discriminate.
      inversion HR; subst. apply (Skip_advanced _ _ _ _ _ Hb) in HS.
      destruct HS as (d & Hd & E). exists d. auto.
    + cbn [bind] in HR.
      destruct (index (limitStack r) (len (limitStack r) - 1)); try discriminate.
      inversion HR; subst. now apply Hsame.
  - inversion HR; subst. now apply Hsame.
  - inversion HR; subst. now apply Hsame.
Qed.

End AdvanceFacts.

(* ------------------------------------------------------------------------- *)
(** ** More fuel changes no result *)

Section FuelFacts.

Context {S : Type} {source : ByteSource S}.
Implicit Types r : reader S.

Lemma bind_Ret_inv {A B : Type} (m : outcome A) (k : A -> outcome B) (b : B) :
  bind m k = Ret b -> exists a, m = Ret a /\ k a = Ret b.
Proof. destruct m; cbn; intros H; try discriminate. eauto. Qed.

Lemma ReadAtLeast_loop_fuel_mono (fuel : nat) :
  forall fuel' r buf min n x,
    (fuel <= fuel')%nat ->
    ReadAtLeast_loop fuel r buf min n = Ret x ->
    ReadAtLeast_loop fuel' r buf min n = Ret x.
Proof.
  induction fuel as [|fuel IH]; intros fuel' r buf min n x Hle H.
  - cbn in H. destruct (n <? min) eqn:E; [discriminate|].
    destruct fuel'; [cbn | rewrite ReadAtLeast_loop_unfold]; now rewrite E.
  - destruct fuel' as [|fuel']; [lia|].
    rewrite ReadAtLeast_loop_unfold in *.
    destruct (n <? min); [|assumption].
    destruct ((n <? 0) || (len buf <? n)); [discriminate|].
    destruct (Read r (slice_from buf n)) as [[[nn e] tail'] r1].
    destruct e; [assumption|]. apply IH; [lia | assumption].
Qed.

Lemma discard_ReadFrom_fuel_mono (fuel : nat) :
  forall fuel' r N buf acc x,
    (fuel <= fuel')%nat ->
    discard_ReadFrom fuel r N buf acc = Ret x ->
    discard_ReadFrom fuel' r N buf acc = Ret x.
Proof.
  induction fuel as [|fuel IH]; intros fuel' r N buf acc x Hle H; [discriminate|].
  destruct fuel' as [|fuel']; [lia|]. cbn [discard_ReadFrom] in *.
  destruct (LimitedReader_Read r N buf) as [[[[n e] buf1] r1] N1].
  destruct e; [assumption|]. apply IH; [lia | assumption].
Qed.

Lemma ReadFull_fuel_mono fuel fuel' r buf x :
  (fuel <= fuel')%nat -> ReadFull fuel r buf = Ret x -> ReadFull fuel' r buf = Ret x.
Proof.
  unfold ReadFull, ReadAtLeast. intros Hle. destruct (len buf <? len buf); [auto|].
  now apply ReadAtLeast_loop_fuel_mono.
Qed.

Lemma binary_Read_fuel_mono fuel fuel' r size decode x :
  (fuel <= fuel')%nat ->
  binary_Read fuel r size decode = Ret x -> binary_Read fuel' r size decode = Ret x.
Proof.
  unfold binary_Read. intros Hle H.
  apply bind_Ret_inv in H. destruct H as (a & H & K).
  now rewrite (ReadFull_fuel_mono _ _ _ _ _ Hle H).
Qed.

Lemma ReadString_fuel_mono fuel fuel' r n x :
  (fuel <= fuel')%nat -> ReadString fuel r n = Ret x -> ReadString fuel' r n = Ret x.
Proof.
  unfold ReadString. intros Hle H.
  apply bind_Ret_inv in H. destruct H as (a & H & K).
  now rewrite (ReadFull_fuel_mono _ _ _ _ _ Hle H).
Qed.

Lemma Skip_fuel_mono fuel fuel' r n x :
  (fuel <= fuel')%nat -> Skip fuel r n = Ret x -> Skip fuel' r n = Ret x.
Proof.
  unfold Skip, CopyN_Discard. intros Hle H.
  destruct (BytesLeftUntilLimit r <? n); [assumption|].
  apply bind_Ret_inv in H. destruct H as (a & H & K).
  apply bind_Ret_inv in H. destruct H as (b & H & K').
  rewrite (discard_ReadFrom_fuel_mono _ _ _ _ _ _ _ Hle H). cbn [bind].
  rewrite K'. exact K.
Qed.

Lemma PopLimit_fuel_mono fuel fuel' r x :
  (fuel <= fuel')%nat -> PopLimit fuel r = Ret x -> PopLimit fuel' r = Ret x.
Proof.
  unfold PopLimit. intros Hle H. destruct (bytesRead r <? limit r); [|assumption].
  apply bind_Ret_inv in H. destruct H as (a & H & K).
  apply bind_Ret_inv in H. destruct H as (b & H & K').
  rewrite (Skip_fuel_mono _ _ _ _ _ Hle H). cbn [bind].
  rewrite K'. exact K.
Qed.

(** An operation that returns with some fuel returns the same with more. *)
Lemma run_fuel_mono fuel fuel' o r r' :
  (fuel <= fuel')%nat -> run fuel o r = Ret r' -> run fuel' o r = Ret r'.
Proof.
  intros Hle H. destruct o; cbn [run] in *; try assumption.
  - unfold ReadUInt16 in *. apply bind_Ret_inv in H. destruct H as (a & H & K).
    now rewrite (binary_Read_fuel_mono _ _ _ _ _ _ Hle H).
  - unfold ReadUInt32 in *. apply bind_Ret_inv in H. destruct H as (a & H & K).
    now rewrite (binary_Read_fuel_mono _ _ _ _ _ _ Hle H).
  - unfold ReadInt16 in *. apply bind_Ret_inv in H. destruct H as (a & H & K).
    now rewrite (binary_Read_fuel_mono _ _ _ _ _ _ Hle H).
  - unfold ReadInt32 in *. apply bind_Ret_inv in H. destruct H as (a & H & K).
    now rewrite (binary_Read_fuel_mono _ _ _ _ _ _ Hle H).
  - apply bind_Ret_inv in H. destruct H as (a & H & K).
    now rewrite (ReadString_fuel_mono _ _ _ _ _ Hle H).
  - apply bind_Ret_inv in H. destruct H as (a & H & K).
    now rewrite (Skip_fuel_mono _ _ _ _ _ Hle H).
  - now apply (PopLimit_fuel_mono fuel).
Qed.

End FuelFacts.

(* ------------------------------------------------------------------------- *)
(** ** The in-memory source *)

Lemma mem_honours_contract : honours_contract (S := list byte).
Proof.
  intros s k Hk. unfold src_Read, MemSource, mem_Read.
  destruct s as [|b s]; cbn [fst res_n res_data].
  - split; [lia | reflexivity].
  - split; [|reflexivity]. split; [apply len_nonneg|].
    unfold len, slice_to. rewrite length_firstn. lia.
Qed.

Lemma mem_supplies (m : nat) :
  forall bs rest : list byte, (length bs <= m)%nat -> supplies (bs ++ rest) bs.
Proof.
  induction m as [|m IH]; intros bs rest Hm.
  - destruct bs; [constructor | simpl in Hm; lia].
  - destruct bs as [|b bs]; [constructor|].
    assert (Hread : forall k, 0 < k <= len (b :: bs) ->
              src_Read ((b :: bs) ++ rest) k =
                (mkResult k (slice_to (b :: bs) k) None, slice_from (b :: bs) k ++ rest)).
    { intros k Hk. unfold src_Read, MemSource, mem_Read. cbn [app].
      change (b :: bs ++ rest) with ((b :: bs) ++ rest).
      assert (E : slice_to ((b :: bs) ++ rest) k = slice_to (b :: bs) k).
      { unfold slice_to. rewrite firstn_app.
        replace (Z.to_nat k - length (b :: bs))%nat with 0%nat by (unfold len in Hk; lia).
        apply app_nil_r. }
      rewrite E, len_slice_to by lia. f_equal.
      unfold slice_from. rewrite skipn_app.
      replace (Z.to_nat k - length (b :: bs))%nat with 0%nat by (unfold len in Hk; lia).
      reflexivity. }
    apply supplies_more; [discriminate | |].
    + intros k Hk. rewrite Hread by assumption. unfold chunk_of.
      cbn [fst res_n res_data res_err]. repeat split; lia.
    + intros k Hk. rewrite Hread by assumption. cbn [fst snd res_n].
      apply IH. unfold slice_from. rewrite length_skipn.
      unfold len in Hk. cbn [length] in *. lia.
Qed.

(* ------------------------------------------------------------------------- *)
(** ** Byte order *)

Lemma byte_val_range (b : byte) : 0 <= byte_val b < 256.
Proof. unfold byte_val. pose proof (Byte.to_N_bounded b). lia. Qed.

Lemma land_shiftl_small (a b k : Z) :
  0 <= k -> 0 <= a < 2 ^ k -> Z.land a (Z.shiftl b k) = 0.
Proof.
  intros Hk Ha. apply Z.bits_inj'. intros n Hn.
  rewrite Z.land_spec, Z.bits_0.
  destruct (Z.lt_ge_cases n k).
  - rewrite Z.shiftl_spec_low by lia. apply andb_false_r.
  - destruct (Z.eq_dec a 0) as [->|]; [now rewrite Z.bits_0|].
    rewrite (Z.bits_above_log2 a n); [reflexivity|lia|].
    apply Z.log2_lt_pow2; try lia.
    apply Z.lt_le_trans with (2 ^ k); try lia. apply Z.pow_le_mono_r; lia.
Qed.

Lemma lor_shiftl (a b k : Z) :
  0 <= k -> 0 <= a < 2 ^ k -> Z.lor a (Z.shiftl b k) = a + b * 2 ^ k.
Proof.
  intros Hk Ha. pose proof (Z.add_lor_land a (Z.shiftl b k)) as E.
  rewrite land_shiftl_small in E by lia.
  rewrite Z.shiftl_mul_pow2 in E |- * by lia. lia.
Qed.

Ltac pow_consts :=
  change (2 ^ 8) with 256 in *;
  change (2 ^ 16) with 65536 in *;
  change (2 ^ 24) with 16777216 in *.

Lemma Uint16_order_value (order : ByteOrder) (b0 b1 : byte) :
  Uint16 order [b0; b1] = order_value order [b0; b1].
Proof.
  pose proof (byte_val_range b0). pose proof (byte_val_range b1).
  destruct order; unfold Uint16, nth_byte;
    cbn [order_value le_value be_value fold_right fold_left nth];
    rewrite lor_shiftl by (pow_consts; lia); pow_consts; lia.
Qed.

Lemma Uint32_order_value (order : ByteOrder) (b0 b1 b2 b3 : byte) :
  Uint32 order [b0; b1; b2; b3] = order_value order [b0; b1; b2; b3].
Proof.
  pose proof (byte_val_range b0). pose proof (byte_val_range b1).
  pose proof (byte_val_range b2). pose proof (byte_val_range b3).
  destruct order; unfold Uint32, nth_byte;
    cbn [order_value le_value be_value fold_right fold_left nth];
    rewrite (lor_shiftl _ _ 8) by (pow_consts; lia);
    rewrite (lor_shiftl _ _ 16) by (pow_consts; lia);
    rewrite (lor_shiftl _ _ 24) by (pow_consts; lia); pow_consts; lia.
Qed.

(* ------------------------------------------------------------------------- *)
(** ** Entering a scope *)

Section PushLimitFacts.

Context {S : Type} {source : ByteSource S}.
Implicit Types r : reader S.

(** C3.  [PushLimit n] computes the boundary [bytesRead + n] as Go does, in
    [int64] (it is the plain sum whenever that fits).  When the boundary is
    beyond the limit in force, [PushLimit] returns an error and the reader is
    unchanged; otherwise it succeeds, the old limit goes on top of the stack
    and the boundary becomes the limit, nothing else of the reader changes. *)
Theorem PushLimit_checks_enclosing_limit r n :
  let newLimit := Int64.add (bytesRead r) n in
  (Int64.in_range (bytesRead r + n) -> newLimit = bytesRead r + n) /\
  (limit r < newLimit -> exists e, PushLimit r n = (Some e, r)) /\
  (newLimit <= limit r ->
   PushLimit r n =
     (None, mkReader (in_ r) (bo r) newLimit (bytesRead r) (limitStack r ++ [limit r]))).
Proof.
  intros newLimit. split; [apply Int64Facts.add_exact|].
  unfold PushLimit. fold newLimit. rewrite Z.gtb_ltb.
  destruct (Z.ltb_spec (limit r) newLimit); split; intros; try lia; eauto.
Qed.

End PushLimitFacts.

Lemma PushLimit_checks_enclosing_limit_witness :
  (exists e, PushLimit (reader_at [x41] LittleEndian 10 2 []) 20
             = (Some e, reader_at [x41] LittleEndian 10 2 [])) /\
  PushLimit (reader_at [x41] LittleEndian 10 2 []) 4
    = (None, reader_at [x41] LittleEndian 6 2 [10]).
Proof.
  split.
  - apply (PushLimit_checks_enclosing_limit (reader_at [x41] LittleEndian 10 2 []) 20).
    vm_compute. reflexivity.
  - apply (PushLimit_checks_enclosing_limit (reader_at [x41] LittleEndian 10 2 []) 4).
    vm_compute. discriminate.
Defined.

(** The sum wraps for a count near the top of [int64]: the scope is entered
    with a boundary at the bottom of the range. *)
Example PushLimit_wraps :
  PushLimit (reader_at [x41] LittleEndian 10 1 []) Int64.max_int
  = (None, reader_at [x41] LittleEndian Int64.min_int 1 [10]).
Proof. vm_compute. reflexivity. Qed.

(* ------------------------------------------------------------------------- *)
(** ** The bounded pull *)

Section ReadClaims.

Context {S : Type} {source : ByteSource S}.
Implicit Types r : reader S.

(** C5.  When the scope is exhausted ([BytesLeftUntilLimit r <= 0]), a pull
    into an empty slice returns zero bytes and no error, a pull into any
    other slice returns zero bytes and [io.EOF]; neither touches the slice,
    the source or the reader. *)
Theorem Read_at_end_of_scope r p :
  BytesLeftUntilLimit r <= 0 ->
  (len p = 0 -> Read r p = (0, None, p, r)) /\
  (0 < len p -> Read r p = (0, Some EOF, p, r)).
Proof.
  intros H. rewrite Read_exhausted by assumption.
  destruct (Z.eqb_spec (len p) 0); split; intros; try lia; reflexivity.
Qed.

(** C6.  When the scope is not exhausted, a pull into a slice of [len p]
    bytes asks the source for [min (len p) (BytesLeftUntilLimit r)] bytes and
    for no more; it returns the count and the error of the source as they
    are, and [bytesRead] grows by that count, also when the source was short
    or returned an error with its bytes.  The limit and the stack stay. *)
Theorem Read_clamps_and_counts r p :
  0 < BytesLeftUntilLimit r ->
  let k := Z.min (len p) (BytesLeftUntilLimit r) in
  let res := fst (src_Read (in_ r) k) in
  exists p' r',
    Read r p = (res_n res, res_err res, p', r') /\
    k <= len p /\ k <= BytesLeftUntilLimit r /\
    in_ r' = snd (src_Read (in_ r) k) /\
    (0 <= res_n res -> bytesRead r' = Int64.add (bytesRead r) (res_n res)) /\
    (0 <= res_n res <= k -> no_overflow r -> bytesRead r' = bytesRead r + res_n res) /\
    same_scope r r'.
Proof.
  intros H k res. pose proof (Read_open r p H) as E. cbv zeta in E.
  fold (request r p) in k. fold k in E. fold res in E.
  eexists. eexists. split; [exact E|].
  cbn [in_ bytesRead limit limitStack bo]. unfold same_scope.
  cbn [limit limitStack bo].
  assert (Hadd : 0 <= res_n res ->
                 (if res_n res >=? 0 then Int64.add (bytesRead r) (res_n res)
                  else bytesRead r) = Int64.add (bytesRead r) (res_n res)).
  { intros Hn. destruct (Z.geb_spec (res_n res) 0); [reflexivity | lia]. }
  repeat split; try (subst k; unfold request; lia); auto.
  intros Hn (Rb & Rl & Rd). rewrite Hadd by lia.
  apply Int64Facts.add_exact.
  assert (BytesLeftUntilLimit r = limit r - bytesRead r)
    by now apply Int64Facts.sub_exact.
  subst k. unfold request, Int64.in_range, Int64.min_int, Int64.max_int in *. lia.
Qed.

End ReadClaims.

Lemma Read_at_end_of_scope_witness :
  Read (reader_at [x41] LittleEndian 6 6 [10]) [] =
    (0, None, [], reader_at [x41] LittleEndian 6 6 [10]) /\
  Read (reader_at [x41] LittleEndian 6 6 [10]) [x00; x00] =
    (0, Some EOF, [x00; x00], reader_at [x41] LittleEndian 6 6 [10]).
Proof.
  split.
  - apply (Read_at_end_of_scope (reader_at [x41] LittleEndian 6 6 [10]) []);
      vm_compute; [discriminate | reflexivity].
  - apply (Read_at_end_of_scope (reader_at [x41] LittleEndian 6 6 [10]) [x00; x00]);
      vm_compute; [discriminate | reflexivity].
Defined.

Lemma Read_clamps_and_counts_witness :
  exists p' r',
    Read (reader_at [x41; x42; x43] LittleEndian 6 4 [10]) [x00; x00; x00; x00; x00] =
      (2, None, p', r') /\ bytesRead r' = 6.
Proof.
  destruct (Read_clamps_and_counts
              (reader_at [x41; x42; x43] LittleEndian 6 4 [10])
              [x00; x00; x00; x00; x00])
    as (p' & r' & E & _ & _ & _ & _ & Hn & _).
  - vm_compute. reflexivity.
  - exists p', r'. split; [exact E|]. apply Hn.
    + vm_compute. split; discriminate.
    + vm_compute. repeat split; discriminate.
Defined.

(* ------------------------------------------------------------------------- *)
(** ** Skipping and leaving a scope *)

Section ScopeClaims.

Context {S : Type} {source : ByteSource S}.
Implicit Types r : reader S.

(** C4, as the code has it.  [Skip n] with [n] beyond what is left until the
    limit returns [ErrorInsufficientBytesLeft] and leaves reader and source
    untouched.  Within the limit and without overflow: when the source
    supplies the bytes, [Skip] of their count returns without error and
    [bytesRead] has grown by exactly that count; and over any source that
    honours the contract of [io.Reader], a [Skip n] with [0 <= n] that
    returns without error has moved [bytesRead] by exactly [n]. *)
Theorem Skip_all_or_nothing :
  (forall fuel r n,
      BytesLeftUntilLimit r < n ->
      Skip fuel r n = Ret (Some ErrorInsufficientBytesLeft, r)) /\
  (forall r bs,
      no_overflow r -> supplies (in_ r) bs -> len bs <= BytesLeftUntilLimit r ->
      exists fuel r',
        Skip fuel r (len bs) = Ret (None, r') /\
        bytesRead r' = bytesRead r + len bs /\ same_scope r r') /\
  (forall fuel r n r',
      honours_contract -> no_overflow r -> Int64.in_range n -> 0 <= n ->
      Skip fuel r n = Ret (None, r') ->
      bytesRead r' = bytesRead r + n).
Proof.
  split; [|split].
  - intros fuel r n H. unfold Skip.
    destruct (Z.ltb_spec (BytesLeftUntilLimit r) n); [reflexivity | lia].
  - intros r bs Hno Hs Hle.
    destruct (Skip_supplies r bs Hs) as (fuel & r' & HS & Hb & HB & Hscope);
      [apply Hno | assumption |].
    exists fuel, r'. split; [exact HS|]. split; [|exact Hscope].
    assert (P : pulled r (len bs) r').
    { unfold pulled. pose proof (len_nonneg bs). repeat split; try tauto; lia. }
    now apply (pulled_monotone r (len bs) r').
  - intros fuel r n r' Hc Hno Rn Hn HS.
    destruct (Skip_pulled Hc fuel r n None r' (proj1 Hno) HS) as (d & P & Hd).
    rewrite <- (Hd Rn Hn eq_refl). now apply (pulled_monotone r d r').
Qed.

(** C1, as the code has it.  With a limit on the stack, a cursor that is not
    past the limit and a source that supplies what is left of the scope,
    [PopLimit] returns with [bytesRead] equal to the limit of the scope it
    left; the limit below it is in force again and is off the stack. *)
Theorem PopLimit_lands_on_limit r bs st l0 :
  limitStack r = st ++ [l0] ->
  Int64.in_range (bytesRead r) -> Int64.in_range (limit r) ->
  bytesRead r <= limit r ->
  supplies (in_ r) bs -> len bs = BytesLeftUntilLimit r ->
  exists fuel r',
    PopLimit fuel r = Ret r' /\
    bytesRead r' = limit r /\ limit r' = l0 /\ limitStack r' = st.
Proof.
  intros Hst Rb Rl Hle Hs Hbs.
  destruct (PopLimit_supplies r bs st l0 Hst Hs Rb Rl Hle Hbs)
    as (fuel & r' & HP & H1 & H2 & H3 & _).
  exists fuel, r'. auto.
Qed.

(** C2, as the code has it.  After a [PushLimit n] that succeeded, a
    [PopLimit] that returns has put back the limit and the stack of before the
    push, whatever [n] and the source were.  When moreover the boundary
    [bytesRead + n] was computed without overflow and the source supplies [n]
    bytes (so [0 <= n]), [PopLimit] does return, and [bytesRead] has grown by
    exactly [n]. *)
Theorem PushLimit_then_PopLimit r n r1 :
  PushLimit r n = (None, r1) ->
  (forall fuel r2,
      PopLimit fuel r1 = Ret r2 ->
      limit r2 = limit r /\ limitStack r2 = limitStack r) /\
  (forall bs,
      no_overflow r -> Int64.in_range (bytesRead r + n) ->
      supplies (in_ r) bs -> len bs = n ->
      exists fuel r2,
        PopLimit fuel r1 = Ret r2 /\
        bytesRead r2 = bytesRead r + n /\
        limit r2 = limit r /\ limitStack r2 = limitStack r).
Proof.
  intros HP. unfold PushLimit in HP. rewrite Z.gtb_ltb in HP.
  destruct (Z.ltb_spec (limit r) (Int64.add (bytesRead r) n)) as [|Hnew];
    [discriminate|].
  inversion HP; subst r1; clear HP. split.
  - intros fuel r2 H2. unfold PopLimit in H2. cbn [bytesRead limit] in H2.
    set (r1 := mkReader _ _ _ _ _) in *.
    assert (Hpop : forall r1', same_scope r1 r1' ->
              match index (limitStack r1') (len (limitStack r1') - 1) with
              | Some l => Ret (mkReader (in_ r1') (bo r1') l (bytesRead r1')
                                 (slice_to (limitStack r1') (len (limitStack r1') - 1)))
              | None => Panic
              end = Ret r2 ->
              limit r2 = limit r /\ limitStack r2 = limitStack r).
    { intros r1' (_ & E & _) H. rewrite E in H. subst r1. cbn [limitStack] in H.
      rewrite index_last, slice_to_last in H. inversion H; subst. auto. }
    destruct (bytesRead r <? Int64.add (bytesRead r) n).
    + destruct (Skip fuel r1 _) as [[e r1']| |] eqn:HS; try discriminate.
      cbn [bind] in H2. apply Skip_same_scope in HS. now apply (Hpop r1').
    + cbn [bind] in H2. apply (Hpop r1); [unfold same_scope; auto | exact H2].
  - intros bs (Rb & Rl & Rd) Rn Hs Hbs. pose proof (len_nonneg bs) as Hl.
    rewrite Int64Facts.add_exact in * by assumption.
    set (r1 := mkReader _ _ _ _ _).
    destruct (PopLimit_supplies r1 bs (limitStack r) (limit r))
      as (fuel & r2 & HP & H1 & H2 & H3 & _); subst r1; cbn [in_ bytesRead limit limitStack];
      auto; try lia.
    + unfold BytesLeftUntilLimit. cbn [bytesRead limit].
      rewrite Int64Facts.sub_exact;
        unfold Int64.in_range, Int64.min_int, Int64.max_int in *; lia.
    + exists fuel, r2. cbn [limit] in H1. auto.
Qed.

(** C10.  With no limit on the stack and the cursor at or past the limit,
    [PopLimit] indexes the empty stack at [-1] and panics. *)
Theorem PopLimit_empty_stack_panics fuel r :
  limitStack r = [] -> limit r <= bytesRead r -> PopLimit fuel r = Panic.
Proof.
  intros Hst Hle. unfold PopLimit.
  destruct (Z.ltb_spec (bytesRead r) (limit r)); [lia|].
  cbn [bind]. rewrite Hst. reflexivity.
Qed.

(** With no limit on the stack [PopLimit] never returns a reader, wherever the
    cursor is: the skip it may run first leaves the stack empty. *)
Lemma PopLimit_empty_stack_never_returns fuel r r' :
  limitStack r = [] -> PopLimit fuel r <> Ret r'.
Proof.
  intros Hst. unfold PopLimit. destruct (bytesRead r <? limit r).
  - destruct (Skip fuel r _) as [[e r1]| |] eqn:HS; try discriminate.
    apply Skip_same_scope in HS. destruct HS as (_ & E & _).
    cbn [bind]. rewrite E, Hst. discriminate.
  - cbn [bind]. rewrite Hst. discriminate.
Qed.

End ScopeClaims.

Lemma Skip_all_or_nothing_witness :
  Skip 3 (reader_over [x41; x42; x43] LittleEndian 2) 3
    = Ret (Some ErrorInsufficientBytesLeft, reader_over [x41; x42; x43] LittleEndian 2) /\
  (exists fuel r',
      Skip fuel (reader_over [x41; x42; x43] LittleEndian 10) 2 = Ret (None, r') /\
      bytesRead r' = 2) /\
  bytesRead (reader_at [x43] LittleEndian 10 2 []) = 0 + 2.
Proof.
  split; [|split].
  - apply (proj1 Skip_all_or_nothing 3%nat (reader_over [x41; x42; x43] LittleEndian 2) 3).
    vm_compute. reflexivity.
  - destruct (proj1 (proj2 Skip_all_or_nothing)
                (reader_over [x41; x42; x43] LittleEndian 10) [x41; x42])
      as (fuel & r' & E & B & _).
    + vm_compute. repeat split; discriminate.
    + apply (mem_supplies 2 [x41; x42] [x43]). simpl. lia.
    + vm_compute. discriminate.
    + exists fuel, r'. split; [exact E | exact B].
  - apply (proj2 (proj2 Skip_all_or_nothing) 3%nat
             (reader_over [x41; x42; x43] LittleEndian 10) 2
             (reader_at [x43] LittleEndian 10 2 [])).
    + apply mem_honours_contract.
    + vm_compute. repeat split; discriminate.
    + vm_compute. split; discriminate.
    + lia.
    + vm_compute. reflexivity.
Defined.

(** C4 as it was stated fails: within the limit, a source that ends early makes
    [Skip] return [io.EOF] with one byte consumed. *)
Lemma Skip_short_source_fails :
  ~ (forall (r : reader (list byte)) (n : Z) (fuel : nat)
            (e : option error) (r' : reader (list byte)),
        n <= BytesLeftUntilLimit r ->
        Skip fuel r n = Ret (e, r') ->
        e = None /\ bytesRead r' = bytesRead r + n).
Proof.
  intros H.
  destruct (H (reader_over [x41] LittleEndian 10) 3 2%nat
              (Some EOF) (reader_at [] LittleEndian 10 1 [])) as [E _].
  - vm_compute. discriminate.
  - vm_compute. reflexivity.
  - discriminate.
Qed.

(** A negative count is within the limit too: [Skip] reports success and
    consumes nothing. *)
Example Skip_negative_count :
  Skip 1 (reader_over [x41] LittleEndian 10) (-1)
  = Ret (None, reader_over [x41] LittleEndian 10).
Proof. vm_compute. reflexivity. Qed.

Lemma PopLimit_lands_on_limit_witness :
  exists fuel r',
    PopLimit fuel (reader_at [x42; x43; x44] LittleEndian 3 1 [10]) = Ret r' /\
    bytesRead r' = 3 /\ limit r' = 10 /\ limitStack r' = [].
Proof.
  apply (PopLimit_lands_on_limit
           (reader_at [x42; x43; x44] LittleEndian 3 1 [10]) [x42; x43] [] 10).
  - reflexivity.
  - vm_compute. split; discriminate.
  - vm_compute. split; discriminate.
  - vm_compute. discriminate.
  - apply (mem_supplies 2 [x42; x43] [x44]). simpl. lia.
  - vm_compute. reflexivity.
Defined.

(** C1 as it was stated fails: the scope of three bytes is left with one byte
    consumed when the source has no more. *)
Lemma PopLimit_short_source_stops_early :
  ~ (forall (r : reader (list byte)) (fuel : nat) (r' : reader (list byte)),
        limitStack r <> [] ->
        PopLimit fuel r = Ret r' ->
        bytesRead r' = limit r).
Proof.
  intros H.
  specialize (H (reader_at [x41] LittleEndian 3 0 [10]) 2%nat
                (reader_at [] LittleEndian 10 1 [])).
  assert (E : 1 = 3); [|discriminate].
  apply H.
  - discriminate.
  - vm_compute. reflexivity.
Qed.

Lemma PushLimit_then_PopLimit_witness :
  (limit (reader_at [x43] LittleEndian 10 2 []) = 10 /\
   limitStack (reader_at [x43] LittleEndian 10 2 []) = []) /\
  (exists fuel r2,
      PopLimit fuel (reader_at [x41; x42; x43] LittleEndian 2 0 [10]) = Ret r2 /\
      bytesRead r2 = 0 + 2 /\ limit r2 = 10 /\ limitStack r2 = []).
Proof.
  pose proof (PushLimit_then_PopLimit
                (reader_over [x41; x42; x43] LittleEndian 10) 2
                (reader_at [x41; x42; x43] LittleEndian 2 0 [10]) eq_refl) as [H1 H2].
  split.
  - apply (H1 3%nat (reader_at [x43] LittleEndian 10 2 [])). vm_compute. reflexivity.
  - apply (H2 [x41; x42]).
    + vm_compute. repeat split; discriminate.
    + vm_compute. split; discriminate.
    + apply (mem_supplies 2 [x41; x42] [x43]). simpl. lia.
    + reflexivity.
Defined.

(** C2 as it was stated fails: a scope of three bytes over a source of one. *)
Lemma PushLimit_then_PopLimit_short_source :
  ~ (forall (r : reader (list byte)) (n : Z) (r1 : reader (list byte))
            (fuel : nat) (r2 : reader (list byte)),
        PushLimit r n = (None, r1) ->
        PopLimit fuel r1 = Ret r2 ->
        bytesRead r2 = bytesRead r + n /\ limit r2 = limit r).
Proof.
  intros H.
  destruct (H (reader_over [x41] LittleEndian 10) 3
              (reader_at [x41] LittleEndian 3 0 [10]) 2%nat
              (reader_at [] LittleEndian 10 1 [])) as [E _].
  - vm_compute. reflexivity.
  - vm_compute. reflexivity.
  - discriminate.
Qed.

(** A negative count is accepted by [PushLimit]; the boundary lies behind the
    cursor and [PopLimit] moves nothing. *)
Example PushLimit_negative_then_PopLimit :
  PushLimit (reader_at [x43] LittleEndian 10 2 []) (-2)
    = (None, reader_at [x43] LittleEndian 0 2 [10]) /\
  PopLimit 0 (reader_at [x43] LittleEndian 0 2 [10])
    = Ret (reader_at [x43] LittleEndian 10 2 []).
Proof. split; vm_compute; reflexivity. Qed.

Lemma PopLimit_empty_stack_panics_witness :
  PopLimit 1 (reader_over [x41] LittleEndian 0) = Panic.
Proof.
  apply (PopLimit_empty_stack_panics 1 (reader_over [x41] LittleEndian 0)).
  - reflexivity.
  - vm_compute. discriminate.
Defined.

(* ------------------------------------------------------------------------- *)
(** ** Typed reads and text *)

Section TypedReads.

Context {S : Type} {source : ByteSource S}.
Implicit Types r : reader S.

Lemma binary_Read_supplies r bs size (decode : ByteOrder -> list byte -> Z) :
  supplies (in_ r) bs ->
  Int64.in_range (bytesRead r) ->
  len bs = size -> size <= BytesLeftUntilLimit r ->
  exists fuel r',
    binary_Read fuel r size decode = Ret (decode (bo r) bs, None, r') /\
    bytesRead r' = Int64.add (bytesRead r) size /\ same_scope r r'.
Proof.
  intros Hs Rb Hlen Hle. pose proof (len_nonneg bs) as Hl.
  destruct (ReadFull_supplies r bs size Hs Rb) as
    (fuel & err & r' & HF & Hfull & _ & Hb & _ & Hscope); [lia | lia |].
  exists fuel, r'. unfold binary_Read. rewrite HF. cbn [bind].
  rewrite (Hfull Hlen), Hlen, Z.sub_diag. change (make_bytes 0) with (@nil byte).
  rewrite app_nil_r. rewrite Hlen in Hb. repeat split; tauto.
Qed.

(** C7.  With two bytes left in the scope and a source that supplies
    [0x01, 0x00], [ReadUInt16] returns 1 for a little-endian reader and 256 for
    a big-endian one.  In general each typed read returns the number its two
    or four bytes denote in the byte order of the reader, least significant
    byte first or most significant byte first; the signed reads convert it to
    [int16] or [int32]. *)
Theorem typed_reads_follow_byte_order r :
  Int64.in_range (bytesRead r) ->
  (2 <= BytesLeftUntilLimit r -> supplies (in_ r) [x01; x00] ->
   exists fuel r',
     ReadUInt16 fuel r =
       Ret (match bo r with LittleEndian => 1 | BigEndian => 256 end, None, r')) /\
  (forall b0 b1,
      2 <= BytesLeftUntilLimit r -> supplies (in_ r) [b0; b1] ->
      (exists fuel r',
          ReadUInt16 fuel r = Ret (order_value (bo r) [b0; b1], None, r')) /\
      (exists fuel r',
          ReadInt16 fuel r = Ret (to_int16 (order_value (bo r) [b0; b1]), None, r'))) /\
  (forall b0 b1 b2 b3,
      4 <= BytesLeftUntilLimit r -> supplies (in_ r) [b0; b1; b2; b3] ->
      (exists fuel r',
          ReadUInt32 fuel r = Ret (order_value (bo r) [b0; b1; b2; b3], None, r')) /\
      (exists fuel r',
          ReadInt32 fuel r =
            Ret (to_int32 (order_value (bo r) [b0; b1; b2; b3]), None, r'))).
Proof.
  intros Rb. split; [|split].
  - intros Hle Hs.
    destruct (binary_Read_supplies r [x01; x00] 2 Uint16 Hs Rb eq_refl Hle)
      as (fuel & r' & E & _).
    exists fuel, r'. unfold ReadUInt16. rewrite E. now destruct (bo r).
  - intros b0 b1 Hle Hs. split.
    + destruct (binary_Read_supplies r [b0; b1] 2 Uint16 Hs Rb eq_refl Hle)
        as (fuel & r' & E & _).
      exists fuel, r'. unfold ReadUInt16. now rewrite E, Uint16_order_value.
    + destruct (binary_Read_supplies r [b0; b1] 2
                  (fun order b => to_int16 (Uint16 order b)) Hs Rb eq_refl Hle)
        as (fuel & r' & E & _).
      exists fuel, r'. unfold ReadInt16. now rewrite E, Uint16_order_value.
  - intros b0 b1 b2 b3 Hle Hs. split.
    + destruct (binary_Read_supplies r [b0; b1; b2; b3] 4 Uint32 Hs Rb eq_refl Hle)
        as (fuel & r' & E & _).
      exists fuel, r'. unfold ReadUInt32. now rewrite E, Uint32_order_value.
    + destruct (binary_Read_supplies r [b0; b1; b2; b3] 4
                  (fun order b => to_int32 (Uint32 order b)) Hs Rb eq_refl Hle)
        as (fuel & r' & E & _).
      exists fuel, r'. unfold ReadInt32. now rewrite E, Uint32_order_value.
Qed.

(** C8, as the code has it.  Without overflow and for [0 <= n]:
    when the source supplies [bs], which either has [n] bytes or lasts exactly
    until the limit, [ReadString n] returns [bs] followed by a zero byte for
    each byte it did not get, with [bytesRead] grown by the length of [bs];
    it succeeds when [bs] has all [n] bytes, and then returns [bs] itself, and
    reports an error otherwise.  Over any source that honours the contract of
    [io.Reader] the text has [n] bytes whatever happened: for some count [k],
    [bytesRead] has grown by [k], the text is zero from position [k] on, and
    there is no error exactly when [k = n]. *)
Theorem ReadString_returns_whole_buffer r n :
  no_overflow r -> 0 <= n ->
  (forall bs,
      supplies (in_ r) bs -> len bs = Z.min n (BytesLeftUntilLimit r) ->
      exists fuel err r',
        ReadString fuel r n = Ret (bs ++ make_bytes (n - len bs), err, r') /\
        bytesRead r' = bytesRead r + len bs /\
        (len bs = n -> err = None /\ bs ++ make_bytes (n - len bs) = bs) /\
        (len bs < n -> err <> None)) /\
  (honours_contract ->
   forall fuel s err r',
     ReadString fuel r n = Ret (s, err, r') ->
     exists k,
       0 <= k <= n /\ bytesRead r' = bytesRead r + k /\
       len s = n /\ slice_from s k = make_bytes (n - k) /\
       (err = None <-> k = n)).
Proof.
  intros Hno Hn. split.
  - intros bs Hs Hlen. pose proof (len_nonneg bs) as Hl.
    destruct (ReadFull_supplies r bs n Hs (proj1 Hno) Hn Hlen) as
      (fuel & err & r' & HF & Hfull & Hshort & Hb & HB & Hscope).
    exists fuel, err, r'. unfold ReadString. rewrite HF. cbn [bind].
    split; [reflexivity|]. split; [|split; [|exact Hshort]].
    + assert (P : pulled r (len bs) r') by (unfold pulled; repeat split; try tauto; lia).
      now apply (pulled_monotone r (len bs) r').
    + intros E. split; [now apply Hfull|].
      rewrite E, Z.sub_diag. apply app_nil_r.
  - intros Hc fuel s err r' HR. unfold ReadString in HR.
    destruct (ReadFull fuel r (make_bytes n)) as [[[[k e] data] r1]| |] eqn:HF;
      try discriminate.
    cbn [bind] in HR. inversion HR; subst. clear HR.
    destruct (ReadFull_pulled Hc _ _ _ _ _ _ _ (proj1 Hno) HF)
      as (Hk & P & Hl & Hsl & Herr).
    rewrite len_make_bytes in * by lia.
    exists k. split; [lia|]. split; [now apply (pulled_monotone r k r')|].
    split; [exact Hl|]. split; [|exact Herr].
    rewrite Hsl. apply slice_from_make_bytes. lia.
Qed.

End TypedReads.

Lemma typed_reads_follow_byte_order_witness :
  (exists fuel r',
      ReadUInt16 fuel (reader_over [x01; x00] LittleEndian 10) = Ret (1, None, r')) /\
  (exists fuel r',
      ReadUInt16 fuel (reader_over [x01; x00] BigEndian 10) = Ret (256, None, r')) /\
  (exists fuel r',
      ReadInt16 fuel (reader_over [xff; xfe] BigEndian 10) = Ret (-2, None, r')) /\
  (exists fuel r',
      ReadUInt32 fuel (reader_over [x01; x02; x03; x04] LittleEndian 10)
      = Ret (67305985, None, r')).
Proof.
  assert (R : forall bs order, Int64.in_range (bytesRead (reader_over bs order 10)))
    by (intros; vm_compute; split; discriminate).
  assert (L2 : forall bs order, 2 <= BytesLeftUntilLimit (reader_over bs order 10))
    by (intros; vm_compute; discriminate).
  assert (L4 : forall bs order, 4 <= BytesLeftUntilLimit (reader_over bs order 10))
    by (intros; vm_compute; discriminate).
  split; [|split; [|split]].
  - apply (proj1 (typed_reads_follow_byte_order
                    (reader_over [x01; x00] LittleEndian 10) (R _ _)) (L2 _ _)).
    apply (mem_supplies 2 [x01; x00] []). simpl. lia.
  - apply (proj1 (typed_reads_follow_byte_order
                    (reader_over [x01; x00] BigEndian 10) (R _ _)) (L2 _ _)).
    apply (mem_supplies 2 [x01; x00] []). simpl. lia.
  - apply (proj1 (proj2 (typed_reads_follow_byte_order
                           (reader_over [xff; xfe] BigEndian 10) (R _ _)))
             xff xfe (L2 _ _)).
    apply (mem_supplies 2 [xff; xfe] []). simpl. lia.
  - apply (proj2 (proj2 (typed_reads_follow_byte_order
                           (reader_over [x01; x02; x03; x04] LittleEndian 10) (R _ _)))
             x01 x02 x03 x04 (L4 _ _)).
    apply (mem_supplies 4 [x01; x02; x03; x04] []). simpl. lia.
Defined.

Lemma ReadString_returns_whole_buffer_witness :
  (exists fuel err r',
      ReadString fuel (reader_over [x41; x42; x43] LittleEndian 10) 2
      = Ret ([x41; x42], err, r') /\ bytesRead r' = 0 + 2) /\
  (exists fuel err r',
      ReadString fuel (reader_over [x41; x42; x43] LittleEndian 2) 3
      = Ret ([x41; x42; x00], err, r') /\ err <> None) /\
  (exists k,
      0 <= k <= 3 /\ bytesRead (reader_at [] LittleEndian 10 1 []) = 0 + k /\
      len [x41; x00; x00] = 3 /\ slice_from [x41; x00; x00] k = make_bytes (3 - k) /\
      (Some ErrUnexpectedEOF = None <-> k = 3)).
Proof.
  split; [|split].
  - destruct (proj1 (ReadString_returns_whole_buffer
                       (reader_over [x41; x42; x43] LittleEndian 10) 2
                       ltac:(vm_compute; repeat split; discriminate) ltac:(lia))
                [x41; x42])
      as (fuel & err & r' & E & B & _).
    + apply (mem_supplies 2 [x41; x42] [x43]). simpl. lia.
    + vm_compute. reflexivity.
    + exists fuel, err, r'. split; [exact E | exact B].
  - destruct (proj1 (ReadString_returns_whole_buffer
                       (reader_over [x41; x42; x43] LittleEndian 2) 3
                       ltac:(vm_compute; repeat split; discriminate) ltac:(lia))
                [x41; x42])
      as (fuel & err & r' & E & _ & _ & Hshort).
    + apply (mem_supplies 2 [x41; x42] [x43]). simpl. lia.
    + vm_compute. reflexivity.
    + exists fuel, err, r'. split; [exact E|]. apply Hshort. vm_compute. reflexivity.
  - apply (proj2 (ReadString_returns_whole_buffer
                    (reader_over [x41] LittleEndian 10) 3
                    ltac:(vm_compute; repeat split; discriminate) ltac:(lia))
             mem_honours_contract 3%nat [x41; x00; x00] (Some ErrUnexpectedEOF)
             (reader_at [] LittleEndian 10 1 [])).
    vm_compute. reflexivity.
Defined.

(** C8 as it was stated fails on a partial failure: of three bytes asked the
    source has one; the text that comes back has three bytes, not the one that
    was read. *)
Lemma ReadString_partial_failure_pads :
  ~ (forall (r : reader (list byte)) (n : Z) (fuel : nat) (s : list byte)
            (e : error) (r' : reader (list byte)),
        ReadString fuel r n = Ret (s, Some e, r') ->
        s = slice_to (in_ r) (bytesRead r' - bytesRead r)).
Proof.
  intros H.
  specialize (H (reader_over [x41] LittleEndian 10) 3 3%nat [x41; x00; x00]
                ErrUnexpectedEOF (reader_at [] LittleEndian 10 1 [])).
  assert (E : [x41; x00; x00] = [x41]); [|discriminate].
  apply H. vm_compute. reflexivity.
Qed.

(* ------------------------------------------------------------------------- *)
(** ** The cursor only moves forward *)

Section Monotone.

Context {S : Type} {source : ByteSource S}.
Implicit Types r : reader S.

(** C9.  Every operation of the interface that returns (the raw read, the
    four typed reads, the text read, [Skip], [PushLimit], [PopLimit] and the
    two queries) has either left [bytesRead] alone or added a count that is
    not negative to it, for every reader and every source.  So [bytesRead]
    never decreases short of an overflow of the [int64] counter; there is
    none when the source honours the contract of [io.Reader] and the counters
    of the reader have not overflowed before. *)
Theorem bytesRead_never_decreases fuel o r r' :
  Int64.in_range (bytesRead r) ->
  run fuel o r = Ret r' ->
  (exists d, 0 <= d /\ bytesRead r' = Int64.add (bytesRead r) d) /\
  (honours_contract -> no_overflow r -> bytesRead r <= bytesRead r').
Proof.
  intros Rb HR. split; [exact (run_advanced fuel o r r' Rb HR)|].
  intros Hc Hno.
  destruct (run_advances Hc fuel o r r' (proj1 Hno) HR) as (d & Hd & Hb).
  destruct Hno as (_ & Rl & Rd).
  assert (HB : BytesLeftUntilLimit r = limit r - bytesRead r)
    by now apply Int64Facts.sub_exact.
  rewrite Hb, Int64Facts.add_exact;
    unfold Int64.in_range, Int64.min_int, Int64.max_int in *; lia.
Qed.

End Monotone.

Lemma bytesRead_never_decreases_witness :
  bytesRead (reader_over [x01; x00; x41] LittleEndian 10)
  <= bytesRead (reader_at [x41] LittleEndian 10 2 []) /\
  bytesRead (reader_at [x41; x42] LittleEndian 1 0 [10])
  <= bytesRead (reader_at [x42] LittleEndian 10 1 []).
Proof.
  split.
  - apply (bytesRead_never_decreases 3 OpReadUInt16
             (reader_over [x01; x00; x41] LittleEndian 10)
             (reader_at [x41] LittleEndian 10 2 [])).
    + vm_compute. split; discriminate.
    + vm_compute. reflexivity.
    + apply mem_honours_contract.
    + vm_compute. repeat split; discriminate.
  - apply (bytesRead_never_decreases 3 OpPopLimit
             (reader_at [x41; x42] LittleEndian 1 0 [10])
             (reader_at [x42] LittleEndian 10 1 [])).
    + vm_compute. split; discriminate.
    + vm_compute. reflexivity.
    + apply mem_honours_contract.
    + vm_compute. repeat split; discriminate.
Defined.

(* ------------------------------------------------------------------------- *)
(** ** Why the loops take fuel *)

(** Over the stalled source no amount of fuel lets [Skip] return: in Go the
    call does not terminate. *)
Lemma Skip_stalled_source (fuel : nat) :
  Skip fuel (mkReader tt LittleEndian 10 0 []) 1 = OutOfFuel.
Proof.
  unfold Skip.
  replace (BytesLeftUntilLimit (mkReader tt LittleEndian 10 0 []) <? 1) with false
    by (vm_compute; reflexivity).
  unfold CopyN_Discard.
  assert (H : forall buf acc, 0 < len buf ->
            discard_ReadFrom fuel (mkReader tt LittleEndian 10 0 []) 1 buf acc = OutOfFuel).
  { induction fuel as [|fuel IH]; intros buf acc Hbuf; [reflexivity|].
    cbn [discard_ReadFrom]. unfold LimitedReader_Read.
    change (1 <=? 0) with false. cbv iota.
    set (q := if len buf >? 1 then slice_to buf 1 else buf).
    assert (Hq : 0 < len q).
    { subst q. rewrite Z.gtb_ltb. destruct (Z.ltb_spec 1 (len buf)).
      - rewrite len_slice_to; lia.
      - lia. }
    destruct (Read (mkReader tt LittleEndian 10 0 []) q) as [[[n e] q'] r1] eqn:HR.
    pose proof (Read_len _ _ _ _ _ _ HR) as HL.
    rewrite Read_open in HR by (vm_compute; reflexivity).
    inversion HR; subst. cbn [fst snd src_Read StalledSource stalled_Read res_n res_err].
    change (Int64.sub 1 0) with 1.
    change (if 0 >=? 0 then Int64.add (bytesRead (mkReader tt LittleEndian 10 0 [])) 0
            else bytesRead (mkReader tt LittleEndian 10 0 [])) with 0.
    apply IH. rewrite len_app. pose proof (len_nonneg (skipn (length q) buf)). lia. }
  rewrite H; [reflexivity|]. vm_compute. reflexivity.
Qed.

(* ------------------------------------------------------------------------- *)
(** ** Two runs *)

(** An outer limit of ten bytes: a 16-bit read, a scope of four bytes read to
    its end by a 32-bit read, the scope left with the cursor at 6, the last
    four bytes skipped; the outer scope is then exhausted and a further read
    meets [io.EOF]. *)
Example nested_scope_run :
  ReadUInt16 3 (reader_over ten_bytes LittleEndian 10)
    = Ret (1, None, reader_at (slice_from ten_bytes 2) LittleEndian 10 2 []) /\
  PushLimit (reader_at (slice_from ten_bytes 2) LittleEndian 10 2 []) 4
    = (None, reader_at (slice_from ten_bytes 2) LittleEndian 6 2 [10]) /\
  ReadUInt32 3 (reader_at (slice_from ten_bytes 2) LittleEndian 6 2 [10])
    = Ret (218893066, None, reader_at (slice_from ten_bytes 6) LittleEndian 6 6 [10]) /\
  IsLimitExhausted (reader_at (slice_from ten_bytes 6) LittleEndian 6 6 [10]) = true /\
  PopLimit 3 (reader_at (slice_from ten_bytes 6) LittleEndian 6 6 [10])
    = Ret (reader_at (slice_from ten_bytes 6) LittleEndian 10 6 []) /\
  Skip 3 (reader_at (slice_from ten_bytes 6) LittleEndian 10 6 []) 4
    = Ret (None, reader_at [] LittleEndian 10 10 []) /\
  IsLimitExhausted (reader_at [] LittleEndian 10 10 []) = true /\
  Read (reader_at [] LittleEndian 10 10 []) [x00]
    = (0, Some EOF, [x00], reader_at [] LittleEndian 10 10 []).
Proof. repeat split; vm_compute; reflexivity. Qed.

(** A scope of five bytes of which two are read as text: leaving it discards
    the other three and the cursor is at 5. *)
Example early_exit_run :
  PushLimit (reader_over ten_bytes LittleEndian 10) 5
    = (None, reader_at ten_bytes LittleEndian 5 0 [10]) /\
  ReadString 3 (reader_at ten_bytes LittleEndian 5 0 [10]) 2
    = Ret ([x01; x00], None, reader_at (slice_from ten_bytes 2) LittleEndian 5 2 [10]) /\
  PopLimit 3 (reader_at (slice_from ten_bytes 2) LittleEndian 5 2 [10])
    = Ret (reader_at (slice_from ten_bytes 5) LittleEndian 10 5 []).
Proof. repeat split; vm_compute; reflexivity. Qed.

(* ------------------------------------------------------------------------- *)
(** ** At the end of a scope *)

Section EndOfScope.

Context {S : Type} {source : ByteSource S}.
Implicit Types r : reader S.

Lemma IsLimitExhausted_true r :
  IsLimitExhausted r = true <-> BytesLeftUntilLimit r <= 0.
Proof. unfold IsLimitExhausted. apply Z.leb_le. Qed.

Lemma ReadAtLeast_loop_exhausted (fuel : nat) :
  forall r buf min n x r',
    BytesLeftUntilLimit r <= 0 ->
    ReadAtLeast_loop fuel r buf min n = Ret (x, r') -> r' = r.
Proof.
  induction fuel as [|fuel IH]; intros r buf min n x r' Hx H.
  - cbn in H. destruct (n <? min); [discriminate|]. now inversion H.
  - rewrite ReadAtLeast_loop_unfold in H.
    destruct (n <? min); [|now inversion H].
    destruct ((n <? 0) || (len buf <? n)); [discriminate|].
    rewrite Read_exhausted in H by assumption.
    destruct (len (slice_from buf n) =? 0).
    + now apply IH in H.
    + now inversion H.
Qed.

Lemma ReadFull_exhausted fuel r buf x r' :
  BytesLeftUntilLimit r <= 0 -> ReadFull fuel r buf = Ret (x, r') -> r' = r.
Proof.
  unfold ReadFull, ReadAtLeast. intros Hx. destruct (len buf <? len buf).
  - intros H. now inversion H.
  - now apply ReadAtLeast_loop_exhausted.
Qed.

Lemma discard_ReadFrom_exhausted (fuel : nat) :
  forall r N buf acc x r',
    BytesLeftUntilLimit r <= 0 ->
    discard_ReadFrom fuel r N buf acc = Ret (x, r') -> r' = r.
Proof.
  induction fuel as [|fuel IH]; intros r N buf acc x r' Hx H; [discriminate|].
  cbn [discard_ReadFrom] in H. unfold LimitedReader_Read in H.
  destruct (N <=? 0); [now inversion H|].
  rewrite Read_exhausted in H by assumption.
  destruct (len _ =? 0).
  - now apply IH in H.
  - now inversion H.
Qed.

Lemma Skip_exhausted fuel r n e r' :
  BytesLeftUntilLimit r <= 0 -> Skip fuel r n = Ret (e, r') -> r' = r.
Proof.
  unfold Skip, CopyN_Discard. intros Hx H.
  destruct (BytesLeftUntilLimit r <? n); [now inversion H|].
  destruct (discard_ReadFrom fuel r n blackHole 0) as [[[w e1] r1]| |] eqn:HD;
    try discriminate.
  apply discard_ReadFrom_exhausted in HD; [subst r1 | assumption]. cbn [bind] in H.
  destruct (w =? n); [now inversion H|].
  destruct e1; [now inversion H|].
  destruct (w <? n); now inversion H.
Qed.

(** [io.ReadFull] of a buffer that is not empty, at the end of the scope. *)
Lemma ReadFull_at_end fuel r n :
  BytesLeftUntilLimit r <= 0 -> 0 < n ->
  ReadFull (Datatypes.S fuel) r (make_bytes n) = Ret (0, Some EOF, make_bytes n, r).
Proof.
  intros Hx Hn. unfold ReadFull, ReadAtLeast.
  rewrite Z.ltb_irrefl, ReadAtLeast_loop_unfold, len_make_bytes by lia.
  destruct (Z.ltb_spec 0 n); [|lia].
  destruct (Z.ltb_spec n 0); [lia|]. cbn [Z.ltb Z.compare orb].
  rewrite slice_from_0, Read_exhausted, len_make_bytes by (assumption || lia).
  destruct (Z.eqb_spec n 0); [lia|].
  unfold ReadAtLeast_end. destruct (Z.geb_spec (0 + 0) n); [lia|]. reflexivity.
Qed.

(** X1.  Once [IsLimitExhausted] reports [true], each of the four typed reads
    returns the value 0 with [io.EOF], and the reader and its source are as
    they were. *)
Theorem typed_reads_at_end_of_scope fuel r :
  IsLimitExhausted r = true ->
  ReadUInt16 (Datatypes.S fuel) r = Ret (0, Some EOF, r) /\
  ReadUInt32 (Datatypes.S fuel) r = Ret (0, Some EOF, r) /\
  ReadInt16 (Datatypes.S fuel) r = Ret (0, Some EOF, r) /\
  ReadInt32 (Datatypes.S fuel) r = Ret (0, Some EOF, r).
Proof.
  intros Hx. apply IsLimitExhausted_true in Hx.
  unfold ReadUInt16, ReadUInt32, ReadInt16, ReadInt32, binary_Read.
  rewrite !ReadFull_at_end by (assumption || lia). repeat split.
Qed.

(** X2.  [ReadString 0] returns the empty text and no error in every state,
    exhausted or not, and asks nothing of the source. *)
Theorem ReadString_of_no_bytes fuel r :
  ReadString fuel r 0 = Ret ([], None, r).
Proof. destruct fuel; reflexivity. Qed.

(** X3.  Once [IsLimitExhausted] reports [true], [ReadString n] for [0 < n]
    returns [n] zero bytes with [io.EOF]; reader and source are as they
    were. *)
Theorem ReadString_at_end_of_scope fuel r n :
  IsLimitExhausted r = true -> 0 < n ->
  ReadString (Datatypes.S fuel) r n = Ret (make_bytes n, Some EOF, r).
Proof.
  intros Hx Hn. apply IsLimitExhausted_true in Hx.
  unfold ReadString. now rewrite ReadFull_at_end.
Qed.

(** X4.  Once [IsLimitExhausted] reports [true], no read, skip or query
    changes anything: whichever of them is called and whatever it returns, the
    reader and its source are as they were.  Only [PopLimit] and [PushLimit]
    get a reader out of that state. *)
Theorem exhausted_reader_is_stuck fuel o r r' :
  IsLimitExhausted r = true -> is_read o = true ->
  run fuel o r = Ret r' -> r' = r.
Proof.
  intros Hx Ho HR. apply IsLimitExhausted_true in Hx.
  assert (Hbin : forall size dec v e,
             binary_Read fuel r size dec = Ret (v, e, r') -> r' = r).
  { intros size dec v e HB. unfold binary_Read in HB.
    destruct (ReadFull fuel r (make_bytes size)) as [[[[n1 e1] b1] r1]| |] eqn:HF;
      try discriminate.
    apply ReadFull_exhausted in HF; [subst r1 | assumption]. cbn [bind] in HB.
    destruct e1; now inversion HB. }
  destruct o; try discriminate; cbn [run] in HR.
  - rewrite Read_exhausted in HR by assumption. now inversion HR.
  - unfold ReadUInt16 in HR.
    destruct (binary_Read fuel r 2 Uint16) as [[[v e] r1]| |] eqn:HB; try discriminate.
    inversion HR; subst. eauto.
  - unfold ReadUInt32 in HR.
    destruct (binary_Read fuel r 4 Uint32) as [[[v e] r1]| |] eqn:HB; try discriminate.
    inversion HR; subst. eauto.
  - unfold ReadInt16 in HR.
    destruct (binary_Read fuel r 2 _) as [[[v e] r1]| |] eqn:HB; try discriminate.
    inversion HR; subst. eauto.
  - unfold ReadInt32 in HR.
    destruct (binary_Read fuel r 4 _) as [[[v e] r1]| |] eqn:HB; try discriminate.
    inversion HR; subst. eauto.
  - unfold ReadString in HR.
    destruct (ReadFull fuel r (make_bytes n)) as [[[[n1 e1] b1] r1]| |] eqn:HF;
      try discriminate.
    cbn [bind] in HR. inversion HR; subst. now apply ReadFull_exhausted in HF.
  - destruct (Skip fuel r n) as [[e r1]| |] eqn:HS; try discriminate.
    cbn [bind] in HR. inversion HR; subst. now apply Skip_exhausted in HS.
  - now inversion HR.
  - now inversion HR.
Qed.

(** X5.  [Skip n] for a count that is zero or negative and not beyond what is
    left until the limit reports success and changes nothing: [io.CopyN]
    copies nothing for such a count and the source is never asked. *)
Theorem Skip_of_no_bytes fuel r n :
  n <= 0 -> n <= BytesLeftUntilLimit r ->
  Skip (Datatypes.S fuel) r n = Ret (None, r).
Proof.
  intros Hn Hle. unfold Skip, CopyN_Discard.
  destruct (Z.ltb_spec (BytesLeftUntilLimit r) n); [lia|].
  cbn [discard_ReadFrom]. unfold LimitedReader_Read.
  destruct (Z.leb_spec n 0); [|lia]. cbn [bind].
  change (Int64.add 0 0) with 0.
  destruct (Z.eqb_spec 0 n) as [<-|]; [reflexivity|].
  destruct (Z.ltb_spec 0 n); [lia | reflexivity].
Qed.

End EndOfScope.

Lemma typed_reads_at_end_of_scope_witness :
  ReadUInt16 1 (reader_at [x41] LittleEndian 6 6 [10])
    = Ret (0, Some EOF, reader_at [x41] LittleEndian 6 6 [10]) /\
  ReadInt32 1 (reader_at [x41] LittleEndian 6 6 [10])
    = Ret (0, Some EOF, reader_at [x41] LittleEndian 6 6 [10]).
Proof.
  destruct (typed_reads_at_end_of_scope 0 (reader_at [x41] LittleEndian 6 6 [10]))
    as (H1 & _ & _ & H4).
  - vm_compute. reflexivity.
  - split; [exact H1 | exact H4].
Defined.

Lemma ReadString_at_end_of_scope_witness :
  ReadString 1 (reader_at [x41] LittleEndian 6 6 [10]) 2
    = Ret ([x00; x00], Some EOF, reader_at [x41] LittleEndian 6 6 [10]).
Proof.
  apply (ReadString_at_end_of_scope 0 (reader_at [x41] LittleEndian 6 6 [10]) 2).
  - vm_compute. reflexivity.
  - lia.
Defined.

Lemma exhausted_reader_is_stuck_witness :
  reader_at [x41] LittleEndian 6 6 [10] = reader_at [x41] LittleEndian 6 6 [10].
Proof.
  apply (exhausted_reader_is_stuck 2 (OpSkip 0)
           (reader_at [x41] LittleEndian 6 6 [10])
           (reader_at [x41] LittleEndian 6 6 [10])).
  - vm_compute. reflexivity.
  - reflexivity.
  - vm_compute. reflexivity.
Defined.

Lemma Skip_of_no_bytes_witness :
  Skip 1 (reader_at [x41] LittleEndian 6 2 [10]) (-3)
    = Ret (None, reader_at [x41] LittleEndian 6 2 [10]).
Proof.
  apply (Skip_of_no_bytes 0 (reader_at [x41] LittleEndian 6 2 [10]) (-3)).
  - lia.
  - vm_compute. discriminate.
Defined.

(* ------------------------------------------------------------------------- *)
(** ** Entering and leaving scopes, more closely *)

Lemma wrap_sub_outer (x b : Z) :
  Int64.wrap (Int64.wrap x - b) = Int64.wrap (x - b).
Proof.
  replace (Int64.wrap x - b) with (- b + Int64.wrap x) by lia.
  rewrite Int64Facts.wrap_add_inner. f_equal. lia.
Qed.

Lemma index_last_inv {A : Type} (l : list A) (x : A) :
  index l (len l - 1) = Some x -> l = slice_to l (len l - 1) ++ [x].
Proof.
  destruct l as [|a l0] using rev_ind.
  - discriminate.
  - rewrite index_last, slice_to_last. intros E. now inversion E.
Qed.

Section ScopeFacts.

Context {S : Type} {source : ByteSource S}.
Implicit Types r : reader S.

(** X6.  After a [PushLimit n] that succeeded, [BytesLeftUntilLimit] is
    exactly [n], for every [int64] count [n], also where the boundary was
    computed with a wrap-around; so the new scope is exhausted from the start
    exactly when [n <= 0].  The cursor and the source are as they were. *)
Theorem PushLimit_sets_remaining r n r1 :
  Int64.in_range n ->
  PushLimit r n = (None, r1) ->
  BytesLeftUntilLimit r1 = n /\
  IsLimitExhausted r1 = (n <=? 0) /\
  bytesRead r1 = bytesRead r /\ in_ r1 = in_ r.
Proof.
  intros Rn HP. unfold PushLimit in HP.
  destruct (Int64.add (bytesRead r) n >? limit r); [discriminate|].
  inversion HP; subst r1; clear HP.
  assert (E : BytesLeftUntilLimit
                (mkReader (in_ r) (bo r) (Int64.add (bytesRead r) n) (bytesRead r)
                          (limitStack r ++ [limit r])) = n).
  { unfold BytesLeftUntilLimit, Int64.sub, Int64.add. cbn [limit bytesRead].
    rewrite wrap_sub_outer. replace (bytesRead r + n - bytesRead r) with n by lia.
    now apply Int64Facts.wrap_exact. }
  unfold IsLimitExhausted. rewrite E. auto.
Qed.

(** X7.  As long as nothing overflows, [PushLimit n] accepts exactly the
    counts that are not beyond [BytesLeftUntilLimit]: the query tells a caller
    beforehand whether a declared length fits. *)
Theorem PushLimit_accepts_what_fits r n :
  no_overflow r -> Int64.in_range (bytesRead r + n) ->
  (fst (PushLimit r n) = None <-> n <= BytesLeftUntilLimit r).
Proof.
  intros (Rb & Rl & Rd) Rn. unfold PushLimit.
  rewrite Int64Facts.add_exact by assumption.
  unfold BytesLeftUntilLimit. rewrite Int64Facts.sub_exact by assumption.
  rewrite Z.gtb_ltb. destruct (Z.ltb_spec (limit r) (bytesRead r + n)); cbn [fst].
  - split; [discriminate | lia].
  - split; [lia | reflexivity].
Qed.

(** X8.  A [PopLimit] that returns has taken exactly one limit off the stack
    and made it the current one, whatever the source did during the skip:
    the stack before is the stack after with the new limit on top.  The byte
    order is kept. *)
Theorem PopLimit_pops_one_level fuel r r' :
  PopLimit fuel r = Ret r' ->
  limitStack r = limitStack r' ++ [limit r'] /\ bo r' = bo r.
Proof.
  unfold PopLimit. intros H.
  assert (Hpop : forall r1, same_scope r r1 ->
            match index (limitStack r1) (len (limitStack r1) - 1) with
            | Some l => Ret (mkReader (in_ r1) (bo r1) l (bytesRead r1)
                               (slice_to (limitStack r1) (len (limitStack r1) - 1)))
            | None => Panic
            end = Ret r' ->
            limitStack r = limitStack r' ++ [limit r'] /\ bo r' = bo r).
  { intros r1 (_ & E & O) H1.
    destruct (index (limitStack r1) (len (limitStack r1) - 1)) as [l|] eqn:HI;
      [|discriminate].
    inversion H1; subst r'; clear H1. cbn [limitStack limit bo].
    split; [|assumption]. rewrite <- E. now apply index_last_inv. }
  destruct (bytesRead r <? limit r).
  - destruct (Skip fuel r _) as [[e r1]| |] eqn:HS; try discriminate.
    cbn [bind] in H. apply Skip_same_scope in HS. now apply (Hpop r1).
  - cbn [bind] in H. apply (Hpop r); [unfold same_scope; auto | exact H].
Qed.

Lemma Skip_pulled_bounded fuel r n e r' :
  honours_contract ->
  Int64.in_range (bytesRead r) -> Int64.in_range n ->
  Skip fuel r n = Ret (e, r') ->
  exists d, pulled r d r' /\ d <= Z.max 0 n.
Proof.
  intros Hc Hb Rn HS. unfold Skip in HS.
  destruct (Z.ltb_spec (BytesLeftUntilLimit r) n).
  - inversion HS; subst. exists 0. split; [now apply pulled_refl | lia].
  - unfold CopyN_Discard in HS.
    destruct (discard_ReadFrom fuel r n blackHole 0) as [[[w e1] r1]| |] eqn:HD;
      try discriminate.
    cbn [bind] in HS.
    destruct (discard_ReadFrom_pulled Hc _ _ _ _ _ _ _ _ Hb HD) as (d & P & _ & Hd).
    exists d. split; [|now apply Hd].
    destruct (w =? n); [now inversion HS; subst|].
    destruct e1; [now inversion HS; subst|].
    destruct (w <? n); now inversion HS; subst.
Qed.

(** X9.  Over a source that honours the contract of [io.Reader] and without
    overflow, [Skip n] never consumes more than [n] bytes, whether it succeeds
    or fails on the way, and never moves a cursor that was within the limit
    past it. *)
Theorem Skip_never_overshoots fuel r n e r' :
  honours_contract -> no_overflow r -> Int64.in_range n ->
  Skip fuel r n = Ret (e, r') ->
  bytesRead r <= bytesRead r' <= bytesRead r + Z.max 0 n /\
  (bytesRead r <= limit r -> bytesRead r' <= limit r).
Proof.
  intros Hc Hno Rn HS.
  destruct (Skip_pulled_bounded fuel r n e r' Hc (proj1 Hno) Rn HS) as (d & P & Hd).
  destruct (pulled_monotone r d r' Hno P) as (Hb & _).
  destruct P as ((Hd0 & Hmax) & _). destruct Hno as (Rb & Rl & Rd).
  assert (HB : BytesLeftUntilLimit r = limit r - bytesRead r)
    by now apply Int64Facts.sub_exact.
  rewrite Hb. split; lia.
Qed.

(** X10.  Over a source that honours the contract of [io.Reader] and without
    overflow, a [PopLimit] that returns has moved a cursor that was within the
    scope forward and not past the limit of the scope it left: leaving a
    scope takes no byte of the enclosing one. *)
Theorem PopLimit_stays_in_scope fuel r r' :
  honours_contract -> no_overflow r -> bytesRead r <= limit r ->
  PopLimit fuel r = Ret r' ->
  bytesRead r <= bytesRead r' <= limit r.
Proof.
  intros Hc Hno Hle H. unfold PopLimit in H.
  destruct (bytesRead r <? limit r).
  - destruct (Skip fuel r _) as [[e r1]| |] eqn:HS; try discriminate.
    cbn [bind] in H.
    destruct (index (limitStack r1) (len (limitStack r1) - 1)); [|discriminate].
    inversion H; subst r'; clear H. cbn [bytesRead].
    destruct (Skip_pulled Hc _ _ _ _ _ (proj1 Hno) HS) as (d & P & _).
    destruct (pulled_monotone r d r1 Hno P) as (Hb & _).
    destruct P as ((Hd0 & Hmax) & _). destruct Hno as (Rb & Rl & Rd).
    assert (HB : BytesLeftUntilLimit r = limit r - bytesRead r)
      by now apply Int64Facts.sub_exact.
    rewrite Hb. lia.
  - cbn [bind] in H.
    destruct (index (limitStack r) (len (limitStack r) - 1)); [|discriminate].
    inversion H; subst r'. cbn [bytesRead]. lia.
Qed.

End ScopeFacts.

Lemma PushLimit_sets_remaining_witness :
  BytesLeftUntilLimit (reader_at [x41] LittleEndian 6 2 [10]) = 4 /\
  IsLimitExhausted (reader_at [x41] LittleEndian 6 2 [10]) = (4 <=? 0) /\
  bytesRead (reader_at [x41] LittleEndian 6 2 [10]) = 2 /\
  in_ (reader_at [x41] LittleEndian 6 2 [10]) = [x41].
Proof.
  apply (PushLimit_sets_remaining (reader_at [x41] LittleEndian 10 2 []) 4
           (reader_at [x41] LittleEndian 6 2 [10])).
  - vm_compute. split; discriminate.
  - vm_compute. reflexivity.
Defined.

Lemma PushLimit_accepts_what_fits_witness :
  fst (PushLimit (reader_at [x41] LittleEndian 10 2 []) 8) = None
  <-> 8 <= BytesLeftUntilLimit (reader_at [x41] LittleEndian 10 2 []).
Proof.
  apply (PushLimit_accepts_what_fits (reader_at [x41] LittleEndian 10 2 []) 8).
  - vm_compute. repeat split; discriminate.
  - vm_compute. split; discriminate.
Defined.

Lemma PopLimit_pops_one_level_witness :
  limitStack (reader_at [x41] LittleEndian 6 3 [20; 10])
    = limitStack (reader_at [] LittleEndian 10 4 [20])
      ++ [limit (reader_at [] LittleEndian 10 4 [20])] /\
  bo (reader_at [] LittleEndian 10 4 [20]) = LittleEndian.
Proof.
  apply (PopLimit_pops_one_level 2 (reader_at [x41] LittleEndian 6 3 [20; 10])
           (reader_at [] LittleEndian 10 4 [20])).
  vm_compute. reflexivity.
Defined.

Lemma Skip_never_overshoots_witness :
  bytesRead (reader_at [x41] LittleEndian 10 2 [])
  <= bytesRead (reader_at [] LittleEndian 10 3 [])
  <= bytesRead (reader_at [x41] LittleEndian 10 2 []) + Z.max 0 5 /\
  (bytesRead (reader_at [x41] LittleEndian 10 2 [])
   <= limit (reader_at [x41] LittleEndian 10 2 []) ->
   bytesRead (reader_at [] LittleEndian 10 3 [])
   <= limit (reader_at [x41] LittleEndian 10 2 [])).
Proof.
  apply (Skip_never_overshoots 3 (reader_at [x41] LittleEndian 10 2 []) 5
           (Some EOF) (reader_at [] LittleEndian 10 3 [])).
  - apply mem_honours_contract.
  - vm_compute. repeat split; discriminate.
  - vm_compute. split; discriminate.
  - vm_compute. reflexivity.
Defined.

Lemma PopLimit_stays_in_scope_witness :
  bytesRead (reader_at [x41] LittleEndian 6 3 [20; 10])
  <= bytesRead (reader_at [] LittleEndian 10 4 [20])
  <= limit (reader_at [x41] LittleEndian 6 3 [20; 10]).
Proof.
  apply (PopLimit_stays_in_scope 2 (reader_at [x41] LittleEndian 6 3 [20; 10])
           (reader_at [] LittleEndian 10 4 [20])).
  - apply mem_honours_contract.
  - vm_compute. repeat split; discriminate.
  - vm_compute. discriminate.
  - vm_compute. reflexivity.
Defined.

(* ------------------------------------------------------------------------- *)
(** ** The typed reads, more closely *)





Section TypedReadFacts.

Context {S : Type} {source : ByteSource S}.
Implicit Types r : reader S.

Lemma binary_Read_took fuel r size (dec : ByteOrder -> list byte -> Z) res :
  honours_contract -> no_overflow r -> 0 <= size ->
  binary_Read fuel r size dec = Ret res -> read_took size r res.
Proof.
  intros Hc Hno Hsize HB. unfold binary_Read in HB.
  destruct (ReadFull fuel r (make_bytes size)) as [[[[k e] data] r1]| |] eqn:HF;
    try discriminate.
  cbn [bind] in HB.
  destruct (ReadFull_pulled Hc _ _ _ _ _ _ _ (proj1 Hno) HF) as (Hk & P & _ & _ & Herr).
  rewrite len_make_bytes in * by lia.
  destruct (pulled_monotone r k r1 Hno P) as (Hb & _).
  assert (Hsc : same_scope r r1) by (unfold same_scope; destruct P; tauto).
  destruct e as [e0|]; inversion HB; subst res; clear HB; cbn [read_took].
  - split; [assumption|]. split; [reflexivity|].
    assert (k <> size) by (intros E; apply Herr in E; discriminate). lia.
  - split; [assumption|]. assert (k = size) by now apply Herr. lia.
Qed.

(** X11.  Over a source that honours the contract of [io.Reader] and without
    overflow: a typed read that reports no error has moved the cursor by the
    size of its type, two bytes or four; one that reports an error returns
    the value 0 and has moved the cursor by less than that size.  The limit
    and the stack are untouched either way. *)
Theorem typed_reads_consume_their_size fuel r :
  honours_contract -> no_overflow r ->
  (forall res, ReadUInt16 fuel r = Ret res -> read_took 2 r res) /\
  (forall res, ReadUInt32 fuel r = Ret res -> read_took 4 r res) /\
  (forall res, ReadInt16 fuel r = Ret res -> read_took 2 r res) /\
  (forall res, ReadInt32 fuel r = Ret res -> read_took 4 r res).
Proof.
  intros Hc Hno. repeat split; intros res H;
    eapply binary_Read_took; try eassumption; lia.
Qed.

Lemma binary_Read_cut_short r bs size (dec : ByteOrder -> list byte -> Z) :
  supplies (in_ r) bs -> Int64.in_range (bytesRead r) ->
  len bs = BytesLeftUntilLimit r -> len bs < size ->
  exists fuel e r',
    binary_Read fuel r size dec = Ret (0, Some e, r') /\
    IsLimitExhausted r' = true /\
    bytesRead r' = Int64.add (bytesRead r) (len bs).
Proof.
  intros Hs Rb Hlen Hlt. pose proof (len_nonneg bs) as Hl.
  destruct (ReadFull_supplies r bs size Hs Rb) as
    (fuel & err & r' & HF & _ & Hshort & Hb & HB & _); [lia | lia |].
  specialize (Hshort Hlt). destruct err as [e|]; [|congruence].
  exists fuel, e, r'. unfold binary_Read. rewrite HF. cbn [bind].
  split; [reflexivity|]. split; [|exact Hb].
  apply IsLimitExhausted_true. lia.
Qed.

(** X12.  When the scope ends before the integer does (the source supplies
    what is left until the limit, and that is less than two or four bytes),
    the typed read returns the value 0 with an error, and the scope is
    exhausted afterwards: the bytes up to the limit are consumed. *)
Theorem typed_reads_cut_short_by_limit r bs :
  supplies (in_ r) bs -> Int64.in_range (bytesRead r) ->
  len bs = BytesLeftUntilLimit r ->
  (len bs < 2 ->
   (exists fuel e r',
       ReadUInt16 fuel r = Ret (0, Some e, r') /\ IsLimitExhausted r' = true /\
       bytesRead r' = Int64.add (bytesRead r) (len bs)) /\
   (exists fuel e r',
       ReadInt16 fuel r = Ret (0, Some e, r') /\ IsLimitExhausted r' = true /\
       bytesRead r' = Int64.add (bytesRead r) (len bs))) /\
  (len bs < 4 ->
   (exists fuel e r',
       ReadUInt32 fuel r = Ret (0, Some e, r') /\ IsLimitExhausted r' = true /\
       bytesRead r' = Int64.add (bytesRead r) (len bs)) /\
   (exists fuel e r',
       ReadInt32 fuel r = Ret (0, Some e, r') /\ IsLimitExhausted r' = true /\
       bytesRead r' = Int64.add (bytesRead r) (len bs))).
Proof.
  intros Hs Rb Hlen. split; intros Hlt; split;
    now apply binary_Read_cut_short.
Qed.


(** X14.  A signed read is the unsigned read of the same width with its value
    converted: from the same reader both consume the same bytes, report the
    same error and leave the same reader, and the signed value is the
    two's-complement reading of the unsigned one. *)
Theorem signed_reads_convert_unsigned fuel r :
  ReadInt16 fuel r = ('(v, e, r') <- ReadUInt16 fuel r ;; Ret (to_int16 v, e, r')) /\
  ReadInt32 fuel r = ('(v, e, r') <- ReadUInt32 fuel r ;; Ret (to_int32 v, e, r')).
Proof.
  unfold ReadInt16, ReadUInt16, ReadInt32, ReadUInt32, binary_Read.
  split.
  - destruct (ReadFull fuel r (make_bytes 2)) as [[[[k e] data] r1]| |]; try reflexivity.
    cbn [bind]. destruct e; reflexivity.
  - destruct (ReadFull fuel r (make_bytes 4)) as [[[[k e] data] r1]| |]; try reflexivity.
    cbn [bind]. destruct e; reflexivity.
Qed.

End TypedReadFacts.

Lemma typed_reads_consume_their_size_witness :
  read_took 2 (reader_over [x01; x00; x41] LittleEndian 10)
            (1, None, reader_at [x41] LittleEndian 10 2 []) /\
  read_took 4 (reader_over [x01; x00; x41] LittleEndian 10)
            (0, Some ErrUnexpectedEOF, reader_at [] LittleEndian 10 3 []).
Proof.
  destruct (typed_reads_consume_their_size 5 (reader_over [x01; x00; x41] LittleEndian 10)
              mem_honours_contract
              ltac:(vm_compute; repeat split; discriminate)) as (H16 & H32 & _).
  split.
  - apply H16. vm_compute. reflexivity.
  - apply H32. vm_compute. reflexivity.
Defined.

Lemma typed_reads_cut_short_by_limit_witness :
  (exists fuel e r',
      ReadUInt16 fuel (reader_at [x41; x42] LittleEndian 6 5 [10]) = Ret (0, Some e, r') /\
      IsLimitExhausted r' = true /\
      bytesRead r' = Int64.add 5 1) /\
  (exists fuel e r',
      ReadInt32 fuel (reader_at [x41; x42] LittleEndian 6 5 [10]) = Ret (0, Some e, r') /\
      IsLimitExhausted r' = true /\
      bytesRead r' = Int64.add 5 1).
Proof.
  destruct (typed_reads_cut_short_by_limit
              (reader_at [x41; x42] LittleEndian 6 5 [10]) [x41]) as (H2 & H4).
  - apply (mem_supplies 1 [x41] [x42]). simpl. lia.
  - vm_compute. split; discriminate.
  - vm_compute. reflexivity.
  - split.
    + apply H2. vm_compute. reflexivity.
    + apply H4. vm_compute. reflexivity.
Defined.


(* ------------------------------------------------------------------------- *)
(** ** Sequences of operations *)

Section SequenceFacts.

Context {S : Type} {source : ByteSource S}.
Implicit Types r : reader S.

Lemma same_scope_refl r : same_scope r r.
Proof. unfold same_scope. auto. Qed.

Lemma same_scope_trans r r1 r2 : same_scope r r1 -> same_scope r1 r2 -> same_scope r r2.
Proof. unfold same_scope. intros (A & B & C) (D & E & F). repeat split; congruence. Qed.

Lemma ReadAtLeast_loop_same_scope (fuel : nat) :
  forall r buf min n x r',
    ReadAtLeast_loop fuel r buf min n = Ret (x, r') -> same_scope r r'.
Proof.
  induction fuel as [|fuel IH]; intros r buf min n x r' H.
  - cbn in H. destruct (n <? min); [discriminate|]. inversion H; subst.
    apply same_scope_refl.
  - rewrite ReadAtLeast_loop_unfold in H.
    destruct (n <? min); [|inversion H; subst; apply same_scope_refl].
    destruct ((n <? 0) || (len buf <? n)); [discriminate|].
    destruct (Read r (slice_from buf n)) as [[[nn e] tail'] r1] eqn:HR.
    apply Read_same_scope in HR. destruct e.
    + inversion H; subst. assumption.
    + apply IH in H. eapply same_scope_trans; eassumption.
Qed.

Lemma ReadFull_same_scope fuel r buf x r' :
  ReadFull fuel r buf = Ret (x, r') -> same_scope r r'.
Proof.
  unfold ReadFull, ReadAtLeast. destruct (len buf <? len buf).
  - intros H. inversion H; subst. apply same_scope_refl.
  - apply ReadAtLeast_loop_same_scope.
Qed.

Lemma binary_Read_same_scope fuel r size (dec : ByteOrder -> list byte -> Z) v e r' :
  binary_Read fuel r size dec = Ret (v, e, r') -> same_scope r r'.
Proof.
  unfold binary_Read. intros HB.
  destruct (ReadFull fuel r (make_bytes size)) as [[[[k e1] data] r1]| |] eqn:HF;
    try discriminate.
  apply ReadFull_same_scope in HF. cbn [bind] in HB.
  destruct e1; inversion HB; subst; assumption.
Qed.

Lemma run_read_same_scope fuel o r r' :
  is_read o = true -> run fuel o r = Ret r' -> same_scope r r'.
Proof.
  intros Ho HR. destruct o; try discriminate; cbn [run] in HR.
  - destruct (Read r p) as [[[n e] p'] r1] eqn:HRd. inversion HR; subst.
    now apply Read_same_scope in HRd.
  - unfold ReadUInt16 in HR.
    destruct (binary_Read fuel r 2 Uint16) as [[[v e] r1]| |] eqn:HB; try discriminate.
    inversion HR; subst. now apply binary_Read_same_scope in HB.
  - unfold ReadUInt32 in HR.
    destruct (binary_Read fuel r 4 Uint32) as [[[v e] r1]| |] eqn:HB; try discriminate.
    inversion HR; subst. now apply binary_Read_same_scope in HB.
  - unfold ReadInt16 in HR.
    destruct (binary_Read fuel r 2 _) as [[[v e] r1]| |] eqn:HB; try discriminate.
    inversion HR; subst. now apply binary_Read_same_scope in HB.
  - unfold ReadInt32 in HR.
    destruct (binary_Read fuel r 4 _) as [[[v e] r1]| |] eqn:HB; try discriminate.
    inversion HR; subst. now apply binary_Read_same_scope in HB.
  - unfold ReadString in HR.
    destruct (ReadFull fuel r (make_bytes n)) as [[[[n1 e1] b1] r1]| |] eqn:HF;
      try discriminate.
    cbn [bind] in HR. inversion HR; subst. now apply ReadFull_same_scope in HF.
  - destruct (Skip fuel r n) as [[e r1]| |] eqn:HS; try discriminate.
    cbn [bind] in HR. inversion HR; subst. now apply Skip_same_scope in HS.
  - inversion HR; subst. apply same_scope_refl.
  - inversion HR; subst. apply same_scope_refl.
Qed.

Lemma run_all_reads_same_scope fuel (ops : list op) :
  forall r r',
    forallb is_read ops = true -> run_all fuel ops r = Ret r' -> same_scope r r'.
Proof.
  induction ops as [|o ops IH]; intros r r' Hops H.
  - inversion H; subst. apply same_scope_refl.
  - cbn [forallb] in Hops. apply andb_true_iff in Hops. destruct Hops as (Ho & Hops).
    cbn [run_all] in H. apply bind_Ret_inv in H. destruct H as (r1 & H1 & H2).
    eapply same_scope_trans; [eapply run_read_same_scope; eassumption | now apply IH].
Qed.

Lemma PopLimit_top fuel r r' st l0 :
  limitStack r = st ++ [l0] -> PopLimit fuel r = Ret r' ->
  limit r' = l0 /\ limitStack r' = st /\ bo r' = bo r.
Proof.
  intros Hst H. unfold PopLimit in H.
  assert (Hpop : forall r1, same_scope r r1 ->
            match index (limitStack r1) (len (limitStack r1) - 1) with
            | Some l => Ret (mkReader (in_ r1) (bo r1) l (bytesRead r1)
                               (slice_to (limitStack r1) (len (limitStack r1) - 1)))
            | None => Panic
            end = Ret r' ->
            limit r' = l0 /\ limitStack r' = st /\ bo r' = bo r).
  { intros r1 (_ & E & O) H1. rewrite E, Hst, index_last, slice_to_last in H1.
    inversion H1; subst. auto. }
  destruct (bytesRead r <? limit r).
  - destruct (Skip fuel r _) as [[e r1]| |] eqn:HS; try discriminate.
    cbn [bind] in H. apply Skip_same_scope in HS. now apply (Hpop r1).
  - cbn [bind] in H. apply (Hpop r); [apply same_scope_refl | exact H].
Qed.

(** X15.  A scope entered with [PushLimit] and left with [PopLimit] after any
    number of reads, typed reads, text reads, skips and queries in between,
    whatever they returned and whatever the source did: the limit and the
    stack are again what they were before the push. *)
Theorem scope_restored_after_reads fuel fuel' (ops : list op) r n r1 r2 r3 :
  PushLimit r n = (None, r1) ->
  forallb is_read ops = true ->
  run_all fuel ops r1 = Ret r2 ->
  PopLimit fuel' r2 = Ret r3 ->
  limit r3 = limit r /\ limitStack r3 = limitStack r /\ bo r3 = bo r.
Proof.
  intros HP Hops Hrun Hpop.
  unfold PushLimit in HP.
  destruct (Int64.add (bytesRead r) n >? limit r); [discriminate|].
  inversion HP; subst r1; clear HP.
  apply (run_all_reads_same_scope _ _ _ _ Hops) in Hrun.
  destruct Hrun as (_ & E & O). cbn [limitStack bo] in E, O.
  destruct (PopLimit_top fuel' r2 r3 (limitStack r) (limit r) E Hpop) as (A & B & C).
  repeat split; congruence.
Qed.

Lemma run_read_pulled fuel o r r' :
  honours_contract -> Int64.in_range (bytesRead r) ->
  is_read o = true -> run fuel o r = Ret r' ->
  exists d, pulled r d r'.
Proof.
  intros Hc Hb Ho HR.
  assert (Hbin : forall size dec v e,
             binary_Read fuel r size dec = Ret (v, e, r') -> exists d, pulled r d r').
  { intros size dec v e HB. unfold binary_Read in HB.
    destruct (ReadFull fuel r (make_bytes size)) as [[[[n1 e1] b1] r1]| |] eqn:HF;
      try discriminate.
    cbn [bind] in HB. apply (ReadFull_pulled Hc _ _ _ _ _ _ _ Hb) in HF.
    destruct HF as (_ & P & _). exists n1. destruct e1; inversion HB; subst; assumption. }
  destruct o; try discriminate; cbn [run] in HR.
  - destruct (Read r p) as [[[n e] p'] r1] eqn:HRd. inversion HR; subst.
    destruct (Read_pulled Hc _ _ _ _ _ _ Hb HRd) as (P & _). eauto.
  - unfold ReadUInt16 in HR.
    destruct (binary_Read fuel r 2 Uint16) as [[[v e] r1]| |] eqn:HB; try discriminate.
    inversion HR; subst. eauto.
  - unfold ReadUInt32 in HR.
    destruct (binary_Read fuel r 4 Uint32) as [[[v e] r1]| |] eqn:HB; try discriminate.
    inversion HR; subst. eauto.
  - unfold ReadInt16 in HR.
    destruct (binary_Read fuel r 2 _) as [[[v e] r1]| |] eqn:HB; try discriminate.
    inversion HR; subst. eauto.
  - unfold ReadInt32 in HR.
    destruct (binary_Read fuel r 4 _) as [[[v e] r1]| |] eqn:HB; try discriminate.
    inversion HR; subst. eauto.
  - unfold ReadString in HR.
    destruct (ReadFull fuel r (make_bytes n)) as [[[[n1 e1] b1] r1]| |] eqn:HF;
      try discriminate.
    cbn [bind] in HR. inversion HR; subst.
    apply (ReadFull_pulled Hc _ _ _ _ _ _ _ Hb) in HF. destruct HF as (_ & P & _). eauto.
  - destruct (Skip fuel r n) as [[e r1]| |] eqn:HS; try discriminate.
    cbn [bind] in HR. inversion HR; subst.
    destruct (Skip_pulled Hc _ _ _ _ _ Hb HS) as (d & P & _). eauto.
  - inversion HR; subst. exists 0. now apply pulled_refl.
  - inversion HR; subst. exists 0. now apply pulled_refl.
Qed.

Lemma within_limits_no_overflow L r :
  L <= Int64.max_int -> within_limits L r -> no_overflow r.
Proof.
  intros HL ((Hb0 & Hbl) & _ & HF). unfold scopes in HF.
  apply Forall_inv in HF.
  unfold no_overflow, Int64.in_range, Int64.min_int, Int64.max_int in *. lia.
Qed.

Lemma pulled_within_limits L r d r' :
  L <= Int64.max_int -> within_limits L r -> pulled r d r' -> within_limits L r'.
Proof.
  intros HL HW P. pose proof (within_limits_no_overflow L r HL HW) as Hno.
  destruct (pulled_monotone r d r' Hno P) as (Hb & _).
  destruct P as ((Hd0 & Hmax) & _ & _ & El & Es & _).
  destruct Hno as (Rb & Rl & Rd).
  assert (HB : BytesLeftUntilLimit r = limit r - bytesRead r)
    by now apply Int64Facts.sub_exact.
  destruct HW as ((Hb0 & Hbl) & Hn & HF).
  unfold within_limits, scopes in *. rewrite El, Es, Hb.
  split; [lia | split; assumption].
Qed.

Lemma run_within_limits L fuel o r r' :
  honours_contract -> L <= Int64.max_int -> push_fits L o ->
  within_limits L r -> run fuel o r = Ret r' -> within_limits L r'.
Proof.
  intros Hc HL Hfit HW HR.
  pose proof (within_limits_no_overflow L r HL HW) as Hno.
  destruct (is_read o) eqn:Ho.
  - destruct (run_read_pulled fuel o r r' Hc (proj1 Hno) Ho HR) as (d & P).
    now apply (pulled_within_limits L r d r').
  - destruct o; try discriminate; cbn [run] in HR.
    + (* PushLimit *)
      inversion HR; subst r'; clear HR. cbn [push_fits] in Hfit.
      destruct HW as ((Hb0 & Hbl) & Hn & HF). unfold scopes in HF.
      pose proof (Forall_inv HF) as HlL.
      unfold PushLimit. rewrite Int64Facts.add_exact
        by (unfold Int64.in_range, Int64.min_int, Int64.max_int in *; lia).
      rewrite Z.gtb_ltb. destruct (Z.ltb_spec (limit r) (bytesRead r + n)); cbn [snd].
      * unfold within_limits, scopes. auto.
      * unfold within_limits, scopes in *. cbn [bytesRead limit limitStack].
        rewrite rev_unit. split; [lia|]. split.
        -- cbn [nested]. split; [lia | exact Hn].
        -- constructor; [lia | exact HF].
    + (* PopLimit *)
      unfold PopLimit in HR.
      assert (Hpop : forall r1, within_limits L r1 ->
                match index (limitStack r1) (len (limitStack r1) - 1) with
                | Some l => Ret (mkReader (in_ r1) (bo r1) l (bytesRead r1)
                                   (slice_to (limitStack r1) (len (limitStack r1) - 1)))
                | None => Panic
                end = Ret r' -> within_limits L r').
      { intros r1 ((Hb0 & Hbl) & Hn & HF) H1.
        destruct (index (limitStack r1) (len (limitStack r1) - 1)) as [l|] eqn:HI;
          [|discriminate].
        apply index_last_inv in HI. inversion H1; subst r'; clear H1.
        unfold within_limits, scopes in *. cbn [bytesRead limit limitStack].
        rewrite HI, rev_unit in Hn, HF. cbn [nested] in Hn.
        apply Forall_inv_tail in HF. split; [lia|]. split; tauto. }
      destruct (bytesRead r <? limit r).
      * destruct (Skip fuel r _) as [[e r1]| |] eqn:HS; try discriminate.
        cbn [bind] in HR.
        destruct (Skip_pulled Hc _ _ _ _ _ (proj1 Hno) HS) as (d & P & _).
        apply (Hpop r1); [now apply (pulled_within_limits L r d r1) | exact HR].
      * cbn [bind] in HR. now apply (Hpop r).
Qed.

Lemma run_all_within_limits L fuel (ops : list op) :
  honours_contract -> L <= Int64.max_int ->
  forall r r',
    Forall (push_fits L) ops -> within_limits L r ->
    run_all fuel ops r = Ret r' -> within_limits L r'.
Proof.
  intros Hc HL. induction ops as [|o ops IH]; intros r r' Hfit HW H.
  - now inversion H; subst.
  - cbn [run_all] in H. apply bind_Ret_inv in H. destruct H as (r1 & H1 & H2).
    inversion Hfit; subst.
    apply (IH r1 r'); try assumption.
    now apply (run_within_limits L fuel o r r1).
Qed.

(** X16.  A reader made by [NewReader] with an outer limit [0 <= L], over a
    source that honours the contract of [io.Reader], after any sequence of
    operations of the interface in which every [PushLimit] asks for a count
    that is not negative (and [L] plus that count fits in [int64]): the cursor
    is within the current limit, every scope lies within the one it was
    pushed in, and none reaches beyond [L].  So no more than [L] bytes are
    ever taken from the source. *)
Theorem reader_stays_within_limits fuel (ops : list op)
        (i : S) (order : ByteOrder) (L : Z) (r' : reader S) :
  honours_contract -> 0 <= L <= Int64.max_int ->
  Forall (push_fits L) ops ->
  run_all fuel ops (fst (NewReader i order L)) = Ret r' ->
  0 <= bytesRead r' <= limit r' /\ limit r' <= L /\ nested (scopes r') /\
  Forall (fun l => l <= L) (limitStack r').
Proof.
  intros Hc HL Hfit H.
  assert (HW : within_limits L (fst (NewReader i order L))).
  { unfold within_limits, scopes. cbn. split; [lia|]. split; [exact I|].
    constructor; [lia | constructor]. }
  apply (run_all_within_limits L fuel ops Hc (proj2 HL) _ _ Hfit HW) in H.
  destruct H as (Hb & Hn & HF). unfold scopes in HF.
  split; [exact Hb|]. split; [exact (Forall_inv HF)|]. split; [exact Hn|].
  apply Forall_inv_tail in HF. apply Forall_forall. intros l Hl.
  apply (proj1 (Forall_forall _ _) HF). now apply in_rev in Hl.
Qed.

End SequenceFacts.

Lemma scope_restored_after_reads_witness :
  limit (reader_at (slice_from ten_bytes 5) LittleEndian 10 5 []) = 10 /\
  limitStack (reader_at (slice_from ten_bytes 5) LittleEndian 10 5 []) = [] /\
  bo (reader_at (slice_from ten_bytes 5) LittleEndian 10 5 []) = LittleEndian.
Proof.
  apply (scope_restored_after_reads 3 3 [OpReadUInt16; OpSkip 1; OpIsLimitExhausted]
           (reader_over ten_bytes LittleEndian 10) 5
           (reader_at ten_bytes LittleEndian 5 0 [10])
           (reader_at (slice_from ten_bytes 3) LittleEndian 5 3 [10])
           (reader_at (slice_from ten_bytes 5) LittleEndian 10 5 [])).
  - vm_compute. reflexivity.
  - reflexivity.
  - vm_compute. reflexivity.
  - vm_compute. reflexivity.
Defined.

Lemma reader_stays_within_limits_witness :
  0 <= bytesRead (reader_at (slice_from ten_bytes 8) LittleEndian 10 8 [])
    <= limit (reader_at (slice_from ten_bytes 8) LittleEndian 10 8 []) /\
  limit (reader_at (slice_from ten_bytes 8) LittleEndian 10 8 []) <= 10 /\
  nested (scopes (reader_at (slice_from ten_bytes 8) LittleEndian 10 8 [])) /\
  Forall (fun l => l <= 10)
         (limitStack (reader_at (slice_from ten_bytes 8) LittleEndian 10 8 [])).
Proof.
  apply (reader_stays_within_limits 3
           [OpReadUInt16; OpPushLimit 4; OpReadUInt16; OpPopLimit; OpSkip 2; OpPushLimit 9]
           ten_bytes LittleEndian 10
           (reader_at (slice_from ten_bytes 8) LittleEndian 10 8 [])).
  - apply mem_honours_contract.
  - vm_compute. split; discriminate.
  - repeat constructor; vm_compute; discriminate.
  - vm_compute. reflexivity.
Defined.

(* ------------------------------------------------------------------------- *)
(** ** The two queries *)

Section QueryFacts.

Context {S : Type} {source : ByteSource S}.
Implicit Types r : reader S.

(** X17.  Over a source that honours the contract of [io.Reader], every read,
    typed read, text read and skip that returns, with or without an error, has
    consumed some count [d] of bytes that is not negative: [bytesRead] has
    grown by [d] and [BytesLeftUntilLimit] has fallen by exactly [d], and a
    [BytesLeftUntilLimit] that was not negative is not negative afterwards.
    The limit, the stack and the byte order are untouched. *)
Theorem reads_shorten_what_is_left fuel o r r' :
  honours_contract -> Int64.in_range (bytesRead r) ->
  is_read o = true -> run fuel o r = Ret r' ->
  exists d,
    0 <= d /\
    bytesRead r' = Int64.add (bytesRead r) d /\
    BytesLeftUntilLimit r' = BytesLeftUntilLimit r - d /\
    (0 <= BytesLeftUntilLimit r -> 0 <= BytesLeftUntilLimit r') /\
    same_scope r r'.
Proof.
  intros Hc Hb Ho HR.
  destruct (run_read_pulled fuel o r r' Hc Hb Ho HR)
    as (d & (Hd0 & Hmax) & B & L & Hscope).
  exists d. split; [lia|]. split; [exact B|]. split; [exact L|].
  split; [lia | exact Hscope].
Qed.

(** X18.  [NewReader] returns no error.  For an [int64] limit [L] the reader
    it makes has exactly [L] bytes left and nothing on its stack, so that it
    is exhausted from the start exactly when [L <= 0]. *)
Theorem NewReader_starts_with_its_limit (i : S) (order : ByteOrder) (L : Z) :
  Int64.in_range L ->
  snd (NewReader i order L) = None /\
  BytesLeftUntilLimit (fst (NewReader i order L)) = L /\
  IsLimitExhausted (fst (NewReader i order L)) = (L <=? 0) /\
  limitStack (fst (NewReader i order L)) = [].
Proof.
  intros RL.
  assert (E : BytesLeftUntilLimit (fst (NewReader i order L)) = L).
  { unfold BytesLeftUntilLimit. cbn [NewReader fst limit bytesRead].
    rewrite Int64Facts.sub_exact; rewrite Z.sub_0_r; [reflexivity | assumption]. }
  unfold IsLimitExhausted. rewrite E. auto.
Qed.

End QueryFacts.

Lemma reads_shorten_what_is_left_witness :
  exists d,
    0 <= d /\
    bytesRead (reader_at [x41] LittleEndian 10 2 []) = Int64.add 0 d /\
    BytesLeftUntilLimit (reader_at [x41] LittleEndian 10 2 [])
      = BytesLeftUntilLimit (reader_over [x01; x00; x41] LittleEndian 10) - d /\
    (0 <= BytesLeftUntilLimit (reader_over [x01; x00; x41] LittleEndian 10) ->
     0 <= BytesLeftUntilLimit (reader_at [x41] LittleEndian 10 2 [])) /\
    same_scope (reader_over [x01; x00; x41] LittleEndian 10)
               (reader_at [x41] LittleEndian 10 2 []).
Proof.
  apply (reads_shorten_what_is_left 3 OpReadUInt16
           (reader_over [x01; x00; x41] LittleEndian 10)
           (reader_at [x41] LittleEndian 10 2 [])).
  - apply mem_honours_contract.
  - vm_compute. split; discriminate.
  - reflexivity.
  - vm_compute. reflexivity.
Defined.

Lemma NewReader_starts_with_its_limit_witness :
  snd (NewReader [x41] BigEndian (-3)) = None /\
  BytesLeftUntilLimit (fst (NewReader [x41] BigEndian (-3))) = -3 /\
  IsLimitExhausted (fst (NewReader [x41] BigEndian (-3))) = (-3 <=? 0) /\
  limitStack (fst (NewReader [x41] BigEndian (-3))) = [].
Proof.
  apply (NewReader_starts_with_its_limit [x41] BigEndian (-3)).
  vm_compute. split; discriminate.
Defined.
